(** * Kaspy: a depth-limited, breadth-budgeted chess move suggester

    A shallow embedding of [kaspy.py] and the properties its specification
    states about it.

    - Python [float] scores are modelled as exact rationals ([Q]); every
      literal of the source ([1000.0], [0.1], [2.5], ...) is written with
      the same decimal notation.  Equality of rationals is coarser than
      equality of doubles: two scores that are equal here may differ in the
      last bit in the program, which then orders them.  Python [int]s are
      [Z], with [//] as the floor division [Z.div].
    - [chess.Board] objects are mutable and passed by reference: a board
      variable of the source is a location ([loc]) into a store of board
      snapshots, [board.copy()] allocates, [board.push(move)] updates in
      place.  The methods of [Kaspy] are computations in a state-and-exception
      monad over that store and over standard output.
    - The [chess] library is not part of the program; its board queries are
      the fields of the class [RulesEngine]. *)

From Stdlib Require Import ZArith QArith List Bool String Lia Sorted Permutation.
From stdpp Require Import gmap.

(** ** The vocabulary of the [chess] library *)

(** [chess.Color] is [bool]: [chess.WHITE = True], [chess.BLACK = False]. *)
Definition Color := bool.
Definition WHITE : Color := true.
Definition BLACK : Color := false.

(** [chess.Square] is an [int] in [0, 64); a [SquareSet] iterates in
    ascending order and is modelled by the list of its members. *)
Definition Square := nat.

Inductive PieceType := PAWN | KNIGHT | BISHOP | ROOK | QUEEN | KING.

Inductive Termination :=
| CHECKMATE | STALEMATE | INSUFFICIENT_MATERIAL | SEVENTYFIVE_MOVES
| FIVEFOLD_REPETITION | FIFTY_MOVES | THREEFOLD_REPETITION
| VARIANT_WIN | VARIANT_LOSS | VARIANT_DRAW.

(** [chess.Outcome]: a dataclass without [__bool__] or [__len__], hence
    always truthy. *)
Record Outcome := mkOutcome { termination : Termination; winner : option Color }.

(** What a [chess.Board] answers, as functions of the snapshot of its state.
    [push] is the state change performed by [board.push(move)]. *)
Class RulesEngine := {
  Board : Type;
  Move : Type;
  turn : Board -> Color;
  legal_moves : Board -> list Move;
  push : Board -> Move -> Board;
  outcome : Board -> option Outcome;
  is_variant_end : Board -> bool;
  is_stalemate : Board -> bool;
  pieces : Board -> PieceType -> Color -> list Square;
  attacks : Board -> Square -> list Square;
  king : Board -> Color -> option Square;
  color_at : Board -> Square -> option Color
}.

(** ** Python built-ins used by the program *)

Definition Qltb (x y : Q) : bool :=
  match (x ?= y)%Q with Lt => true | _ => false end.

(** Truth value of an [Optional] object whose class defines no [__bool__]. *)
Definition truthy {A} (o : option A) : bool :=
  match o with Some _ => true | None => false end.

(** [o is None]. *)
Definition is_None {A} (o : option A) : bool :=
  match o with Some _ => false | None => true end.

(** [w == c] for [w : Optional[Color]]: [None == True] and [None == False]
    are both [False]. *)
Definition opt_color_eqb (w : option Color) (c : Color) : bool :=
  match w with Some c' => Bool.eqb c' c | None => false end.

(** [sum(xs)]: left to right, starting from [0]. *)
Definition py_sum (xs : list Q) : Q := fold_left Qplus xs 0%Q.

(** [max(xs, key=key)]: the running best is replaced only by an item of
    strictly greater key, so the first item of maximal key is returned;
    [None] stands for the [ValueError] raised on an empty sequence. *)
Definition max_step {A} (key : A -> Q) (best y : A) : A :=
  if Qltb (key best) (key y) then y else best.

Definition py_max_by {A} (key : A -> Q) (xs : list A) : option A :=
  match xs with
  | [] => None
  | x :: rest => Some (fold_left (max_step key) rest x)
  end.

(** [min(xs, key=key)]. *)
Definition min_step {A} (key : A -> Q) (best y : A) : A :=
  if Qltb (key y) (key best) then y else best.

Definition py_min_by {A} (key : A -> Q) (xs : list A) : option A :=
  match xs with
  | [] => None
  | x :: rest => Some (fold_left (min_step key) rest x)
  end.

(** [xs or ys] on lists: an empty list is falsy. *)
Definition py_or {A} (xs ys : list A) : list A :=
  match xs with [] => ys | _ => xs end.

(** [sorted(xs, key=key, reverse=reverse)].  The sort is stable; it is
    modelled by a stable insertion sort.  With [reverse=True] CPython
    reverses the list, sorts it and reverses the result, which keeps items
    with equal keys in their original order. *)
Fixpoint insert_by {A} (key : A -> Q) (x : A) (l : list A) : list A :=
  match l with
  | [] => [x]
  | y :: l' => if Qltb (key y) (key x) then y :: insert_by key x l' else x :: l
  end.

Definition stable_sort {A} (key : A -> Q) (l : list A) : list A :=
  fold_right (insert_by key) [] l.

Definition sorted {A} (key : A -> Q) (reverse : bool) (xs : list A) : list A :=
  if reverse then rev (stable_sort key (rev xs)) else stable_sort key xs.

(** Ascending and descending order of the keys. *)
Definition ascending {A} (key : A -> Q) (x y : A) : Prop := (key x <= key y)%Q.
Definition descending {A} (key : A -> Q) (x y : A) : Prop := (key y <= key x)%Q.

(** ** The piece table of [Kaspy.__init__] *)

Definition piece_types : list PieceType :=
  [PAWN; KING; KNIGHT; BISHOP; ROOK; QUEEN].

Definition piece_value (p : PieceType) : Q :=
  match p with
  | PAWN => 1.0
  | KING => 2.5
  | KNIGHT => 3.0
  | BISHOP => 3.5
  | ROOK => 5.0
  | QUEEN => 9.0
  end%Q.

(** What [suggest] can hand back to its caller: [None], a [chess.Move] (what
    its annotation [chess.Move | None] announces), or a [(move, score)]
    tuple (an item of its list [evals]). *)
Inductive suggestion {E : RulesEngine} :=
| NoMove
| JustMove (m : Move)
| ScoredPair (m : Move) (s : Q).

Section Monad.
Context {E : RulesEngine}.

(** ** Store, exceptions and the monad of the program *)

Definition loc := positive.

Record state := mkState { heap : gmap loc Board; stdout : list string }.

Inductive exn :=
| EvalsEmpty (b : Board)   (* Exception(f"evals is empty. board: {board}") *)
| ValueError               (* max() or min() of an empty sequence *)
| TypeError                (* board.attacks(None) *)
| RecursionError           (* the recursion budget of [eval_fuel] is used up *)
| DanglingReference (l : loc).
    (* no Python counterpart: a location outside the store *)

Inductive result (A : Type) :=
| Ok (a : A)
| Raise (e : exn).
Arguments Ok {A} a.
Arguments Raise {A} e.

Definition M (A : Type) := state -> result A * state.

Definition ret {A} (a : A) : M A := fun st => (Ok a, st).

Definition raise {A} (e : exn) : M A := fun st => (Raise e, st).

Definition bind {A B} (c : M A) (k : A -> M B) : M B :=
  fun st =>
    match c st with
    | (Ok a, st') => k a st'
    | (Raise e, st') => (Raise e, st')
    end.

End Monad.

Arguments Ok {E A} a.
Arguments Raise {E A} e.

Declare Scope kaspy_scope.
Delimit Scope kaspy_scope with kaspy.
Notation "x <- c1 ;; c2" := (bind c1 (fun x => c2))
  (at level 20, c1 at level 99, c2 at level 200) : kaspy_scope.
Notation "c1 ;; c2" := (bind c1 (fun _ => c2))
  (at level 100, c2 at level 200, right associativity) : kaspy_scope.
Open Scope kaspy_scope.

Section Methods.
Context {E : RulesEngine}.

(** ** Board objects in the store *)

(** Reading the state of the object a variable refers to. *)
Definition get_board (board : loc) : M Board :=
  fun st =>
    match heap st !! board with
    | Some b => (Ok b, st)
    | None => (Raise (DanglingReference board), st)
    end.

(** A query that only reads the board. *)
Definition query {A} (f : Board -> A) (board : loc) : M A :=
  b <- get_board board ;; ret (f b).

(** [board.copy()]: a new object, with the state of the original. *)
Definition board_copy (board : loc) : M loc :=
  b <- get_board board ;;
  fun st =>
    let l := fresh (dom (heap st)) in
    (Ok l, mkState (<[l := b]> (heap st)) (stdout st)).

(** [board.push(move)]: in-place update of the object. *)
Definition board_push (board : loc) (move : Move) : M unit :=
  b <- get_board board ;;
  fun st => (Ok tt, mkState (<[board := push b move]> (heap st)) (stdout st)).

(** [print(s)]. *)
Definition print (s : string) : M unit :=
  fun st => (Ok tt, mkState (heap st) (stdout st ++ [s])).

(** The loop [acc = []; for x in xs: acc.append(body(x))]. *)
Fixpoint for_each {A B} (xs : list A) (body : A -> M B) : M (list B) :=
  match xs with
  | [] => ret []
  | x :: xs' =>
      y <- body x ;;
      ys <- for_each xs' body ;;
      ret (y :: ys)
  end.

(** [with make_move(board, move) as new_board: body]: the context manager
    copies the board, pushes the move on the copy and yields the copy; it
    does nothing on exit. *)
Definition make_move {A} (board : loc) (move : Move) (body : loc -> M A) : M A :=
  new_board <- board_copy board ;;
  board_push new_board move ;;
  body new_board.

(** ** The evaluator *)

Definition get_material_score (board : loc) (color : Color) : M Q :=
  b <- get_board board ;;
  ret (fold_left
         (fun score piece =>
            let num_pieces := length (pieces b piece color) in
            (score + inject_Z (Z.of_nat num_pieces) * piece_value piece)%Q)
         piece_types 0%Q).

Definition get_attacked_squares_score (board : loc) (color : Color) : M Q :=
  b <- get_board board ;;
  let score :=
    fold_left
      (fun score piece =>
         fold_left (fun score square => (score + Z.of_nat (length (attacks b square)))%Z)
                   (pieces b piece color) score)
      piece_types 0%Z in
  ret (inject_Z score * 0.1)%Q.

Definition get_king_safety_score (board : loc) (color : Color) : M Q :=
  b <- get_board board ;;
  match king b color with
  | None => raise TypeError
  | Some king_square =>
      let score :=
        fold_left
          (fun score square =>
             (score + (if opt_color_eqb (color_at b square) color then 1 else 0))%Z)
          (attacks b king_square) 0%Z in
      ret (inject_Z score * 0.2)%Q
  end.

(** ** The searcher *)

(** [if outcome and outcome.winner == color]. *)
Definition outcome_and_winner_is (outcome : option Outcome) (color : Color) : bool :=
  match outcome with
  | Some o => opt_color_eqb (winner o) color
  | None => false
  end.

(** The body of [generate_candidates], with the method [self.eval] it calls
    as a parameter; [self.eval(new_board)] uses the defaults [depth=0] and
    [breadth=0].  The parameter [k] is not used by the source either. *)
Definition generate_candidates_with (self_eval : loc -> Z -> Z -> M Q)
    (board : loc) (k : Z) : M (list Move) :=
  moves <- query legal_moves board ;;
  evals <- for_each moves (fun move =>
             make_move board move (fun new_board =>
               score <- self_eval new_board 0%Z 0%Z ;;
               ret (move, score))) ;;
  board_turn <- query turn board ;;
  ret (map fst (sorted snd (Bool.eqb board_turn WHITE) evals)).

(** The end of [eval] (lines 94 to 99): the check of [evals], then its
    maximum or minimum. *)
Definition select_extremum (board : loc) (evals : list Q) : M Q :=
  match evals with
  | [] => b <- get_board board ;; raise (EvalsEmpty b)
  | _ =>
      board_turn <- query turn board ;;
      if Bool.eqb board_turn WHITE then
        match py_max_by id (py_or evals [0.0%Q]) with
        | Some v => ret v
        | None => raise ValueError
        end
      else
        match py_min_by id (py_or evals [0.0%Q]) with
        | Some v => ret v
        | None => raise ValueError
        end
  end.

(** The body of [eval], with the method [self.eval] of its recursive calls
    as a parameter. *)
Definition eval_body (self_eval : loc -> Z -> Z -> M Q)
    (board : loc) (depth breadth : Z) : M Q :=
  outcome <- query outcome board ;;
  if outcome_and_winner_is outcome WHITE then ret 1000.0%Q
  else if outcome_and_winner_is outcome BLACK then ret (- 1000.0)%Q
  else if truthy outcome && is_None outcome then ret 0.0%Q
  else if (depth =? 0)%Z then
    material_white <- get_material_score board WHITE ;;
    material_black <- get_material_score board BLACK ;;
    attacked_white <- get_attacked_squares_score board WHITE ;;
    attacked_black <- get_attacked_squares_score board BLACK ;;
    safety_white <- get_king_safety_score board WHITE ;;
    safety_black <- get_king_safety_score board BLACK ;;
    ret (py_sum [material_white; - material_black;
                 attacked_white; - attacked_black;
                 safety_white; - safety_black]%Q)
  else
    candidates <- generate_candidates_with self_eval board
                    (if (breadth =? 0)%Z then 1 else breadth)%Z ;;
    evals <- for_each candidates (fun move =>
               make_move board move (fun new_board =>
                 self_eval new_board
                   (if (breadth >? 0)%Z then depth - 1 else 0)%Z
                   (breadth / 2)%Z)) ;;
    select_extremum board evals.

(** [eval], by recursion on a budget of nested calls: with no budget left
    a recursive call raises [RecursionError].  A call with [depth == 0]
    makes none; [eval] below supplies a budget that is never used up
    (lemmas [eval_fuel_enough] and [eval_val_no_recursion_error]). *)
Fixpoint eval_fuel (fuel : nat) : loc -> Z -> Z -> M Q :=
  eval_body
    match fuel with
    | O => fun _ _ _ => raise RecursionError
    | S fuel' => eval_fuel fuel'
    end.

(** The number of nested calls [eval] can make from [(depth, breadth)]: a
    positive breadth is halved at each level, and the level after it
    reaches zero is forced to depth zero. *)
Definition call_budget (depth breadth : Z) : nat :=
  if (depth =? 0)%Z then 0
  else if (breadth >? 0)%Z then S (S (Z.to_nat (Z.log2 breadth)))
  else 1.

Definition eval (board : loc) (depth breadth : Z) : M Q :=
  eval_fuel (call_budget depth breadth) board depth breadth.

Definition generate_candidates (board : loc) (k : Z) : M (list Move) :=
  generate_candidates_with eval board k.

(** The list [evals] that [suggest] builds (lines 57 to 62);
    [self_board] is the attribute [self.board]. *)
Definition suggest_evals (self_board : loc) (depth breadth : Z) : M (list (Move * Q)) :=
  candidates <- generate_candidates self_board breadth ;;
  for_each candidates (fun move =>
    make_move self_board move (fun tmp_board =>
      score <- eval tmp_board depth breadth ;;
      ret (move, score))).

Definition suggest (self_board : loc) (depth breadth : Z) : M suggestion :=
  variant_end <- query is_variant_end self_board ;;
  if variant_end then
    print "game is over" ;; ret NoMove
  else
    stalemate <- query is_stalemate self_board ;;
    if stalemate then
      print "stalemate" ;; ret NoMove
    else
      evals <- suggest_evals self_board depth breadth ;;
      board_turn <- query turn self_board ;;
      if Bool.eqb board_turn WHITE then
        match py_max_by snd evals with
        | Some (move, score) => ret (ScoredPair move score)
        | None => raise ValueError
        end
      else
        match py_min_by snd evals with
        | Some (move, score) => ret (ScoredPair move score)
        | None => raise ValueError
        end.

Definition generate_moves (self_board : loc) : M (list Move) :=
  query legal_moves self_board.

End Methods.

(** ** Value semantics

    What each method computes, as a function of the snapshot of the board
    it is called on.  These functions have no store; lemma [eval_fuel_value]
    and its companions show that the methods above compute exactly them and
    leave every board already in the store as it was. *)

Section Values.
Context {E : RulesEngine}.

Definition rbind {A B} (r : result A) (k : A -> result B) : result B :=
  match r with
  | Ok a => k a
  | Raise e => Raise e
  end.

Fixpoint rmap {A B} (f : A -> result B) (xs : list A) : result (list B) :=
  match xs with
  | [] => Ok []
  | x :: xs' => rbind (f x) (fun y => rbind (rmap f xs') (fun ys => Ok (y :: ys)))
  end.

Definition material_score_val (b : Board) (color : Color) : Q :=
  fold_left
    (fun score piece =>
       (score + inject_Z (Z.of_nat (length (pieces b piece color)))
                * piece_value piece)%Q)
    piece_types 0%Q.

Definition attacked_squares_score_val (b : Board) (color : Color) : Q :=
  (inject_Z
     (fold_left
        (fun score piece =>
           fold_left
             (fun score square => (score + Z.of_nat (length (attacks b square)))%Z)
             (pieces b piece color) score)
        piece_types 0%Z) * 0.1)%Q.

Definition king_safety_score_val (b : Board) (color : Color) : result Q :=
  match king b color with
  | None => Raise TypeError
  | Some king_square =>
      Ok (inject_Z
            (fold_left
               (fun score square =>
                  (score + (if opt_color_eqb (color_at b square) color then 1 else 0))%Z)
               (attacks b king_square) 0%Z) * 0.2)%Q
  end.

(** The six-term sum of the branch [depth == 0]. *)
Definition static_val (b : Board) : result Q :=
  rbind (king_safety_score_val b WHITE) (fun safety_white =>
  rbind (king_safety_score_val b BLACK) (fun safety_black =>
  Ok (py_sum [material_score_val b WHITE; - material_score_val b BLACK;
              attacked_squares_score_val b WHITE; - attacked_squares_score_val b BLACK;
              safety_white; - safety_black]%Q))).

(** The (move, score) list built by the loop of [generate_candidates]. *)
Definition scored_moves_val (self_eval : Board -> result Q) (b : Board)
  : result (list (Move * Q)) :=
  rmap (fun move => rbind (self_eval (push b move)) (fun score => Ok (move, score)))
       (legal_moves b).

Definition generate_candidates_with_val (self_eval : Board -> result Q) (b : Board)
  : result (list Move) :=
  rbind (scored_moves_val self_eval b) (fun evals =>
  Ok (map fst (sorted snd (Bool.eqb (turn b) WHITE) evals))).

(** The budget handed to the recursive calls of [eval]. *)
Definition child_depth (depth breadth : Z) : Z :=
  if (breadth >? 0)%Z then (depth - 1)%Z else 0%Z.

Definition child_breadth (breadth : Z) : Z := (breadth / 2)%Z.

Definition select_extremum_val (b : Board) (evals : list Q) : result Q :=
  match evals with
  | [] => Raise (EvalsEmpty b)
  | _ =>
      if Bool.eqb (turn b) WHITE then
        match py_max_by id (py_or evals [0.0%Q]) with
        | Some v => Ok v
        | None => Raise ValueError
        end
      else
        match py_min_by id (py_or evals [0.0%Q]) with
        | Some v => Ok v
        | None => Raise ValueError
        end
  end.

Definition eval_val_body (self_eval : Board -> Z -> Z -> result Q)
    (b : Board) (depth breadth : Z) : result Q :=
  if outcome_and_winner_is (outcome b) WHITE then Ok 1000.0%Q
  else if outcome_and_winner_is (outcome b) BLACK then Ok (- 1000.0)%Q
  else if truthy (outcome b) && is_None (outcome b) then Ok 0.0%Q
  else if (depth =? 0)%Z then static_val b
  else
    rbind (generate_candidates_with_val (fun b' => self_eval b' 0%Z 0%Z) b)
      (fun candidates =>
    rbind (rmap (fun move => self_eval (push b move)
                               (child_depth depth breadth) (child_breadth breadth))
                candidates)
      (select_extremum_val b)).

Fixpoint eval_val_fuel (fuel : nat) : Board -> Z -> Z -> result Q :=
  eval_val_body
    match fuel with
    | O => fun _ _ _ => Raise RecursionError
    | S fuel' => eval_val_fuel fuel'
    end.

Definition eval_val (b : Board) (depth breadth : Z) : result Q :=
  eval_val_fuel (call_budget depth breadth) b depth breadth.

Definition generate_candidates_val (b : Board) : result (list Move) :=
  generate_candidates_with_val (fun b' => eval_val b' 0%Z 0%Z) b.

(** The list [evals] of [suggest]: every candidate with the evaluation of
    the position it leads to. *)
Definition root_evals_val (b : Board) (depth breadth : Z) : result (list (Move * Q)) :=
  rbind (generate_candidates_val b) (fun candidates =>
  rmap (fun move => rbind (eval_val (push b move) depth breadth)
                          (fun score => Ok (move, score)))
       candidates).

Definition suggest_val (b : Board) (depth breadth : Z) : result suggestion :=
  if is_variant_end b then Ok NoMove
  else if is_stalemate b then Ok NoMove
  else
    rbind (root_evals_val b depth breadth) (fun evals =>
    if Bool.eqb (turn b) WHITE then
      match py_max_by snd evals with
      | Some (move, score) => Ok (ScoredPair move score)
      | None => Raise ValueError
      end
    else
      match py_min_by snd evals with
      | Some (move, score) => Ok (ScoredPair move score)
      | None => Raise ValueError
      end).

(** ** The evaluator, as the specification words it *)

(** Count of a piece kind times its weight, over the six kinds. *)
Definition spec_material (b : Board) (side : Color) : Q :=
  (1.0 * inject_Z (Z.of_nat (length (pieces b PAWN side)))
   + 2.5 * inject_Z (Z.of_nat (length (pieces b KING side)))
   + 3.0 * inject_Z (Z.of_nat (length (pieces b KNIGHT side)))
   + 3.5 * inject_Z (Z.of_nat (length (pieces b BISHOP side)))
   + 5.0 * inject_Z (Z.of_nat (length (pieces b ROOK side)))
   + 9.0 * inject_Z (Z.of_nat (length (pieces b QUEEN side))))%Q.

(** The squares of all the pieces of a side. *)
Definition squares_of (b : Board) (side : Color) : list Square :=
  flat_map (fun kind => pieces b kind side) [PAWN; KNIGHT; BISHOP; ROOK; QUEEN; KING].

(** 0.1 times the total number of squares attacked by the pieces of a side. *)
Definition spec_mobility (b : Board) (side : Color) : Q :=
  (0.1 * inject_Z (Z.of_nat (list_sum (map (fun sq => length (attacks b sq))
                                          (squares_of b side)))))%Q.

(** 0.2 times the number of squares attacked by the king on [king_square]
    that hold a piece of its own side. *)
Definition spec_king_safety (b : Board) (side : Color) (king_square : Square) : Q :=
  (0.2 * inject_Z (Z.of_nat (length
     (List.filter (fun sq => opt_color_eqb (color_at b sq) side)
                  (attacks b king_square)))))%Q.

End Values.

(** ** A tabulated rules engine

    A position lists what the engine answers on it: side to move, outcome,
    the two flags [suggest] asks for, the pieces, the attacked squares of
    each occupied square, and the legal moves with the positions they lead
    to.  Squares are numbered as in [chess]: [a1 = 0], [h1 = 7], [h8 = 63]. *)

#[warnings="-register-all"]
Inductive position := Position {
  pos_turn : Color;
  pos_outcome : option Outcome;
  pos_variant_end : bool;
  pos_stalemate : bool;
  pos_placement : list (Square * (Color * PieceType));
  pos_attacks : list (Square * list Square);
  pos_moves : list (string * position)
}.

Definition piece_type_eqb (p q : PieceType) : bool :=
  match p, q with
  | PAWN, PAWN | KNIGHT, KNIGHT | BISHOP, BISHOP
  | ROOK, ROOK | QUEEN, QUEEN | KING, KING => true
  | _, _ => false
  end.

Fixpoint assoc {A B} (eqb : A -> A -> bool) (k : A) (l : list (A * B)) : option B :=
  match l with
  | [] => None
  | (k', v) :: l' => if eqb k k' then Some v else assoc eqb k l'
  end.

Definition pos_pieces (p : position) (kind : PieceType) (color : Color) : list Square :=
  map fst
      (List.filter
         (fun e => Bool.eqb (fst (snd e)) color && piece_type_eqb (snd (snd e)) kind)
         (pos_placement p)).

#[export] Instance tabulated : RulesEngine := {|
  Board := position;
  Move := string;
  turn := pos_turn;
  legal_moves := fun p => map fst (pos_moves p);
  push := fun p m =>
    match assoc String.eqb m (pos_moves p) with Some q => q | None => p end;
  outcome := pos_outcome;
  is_variant_end := pos_variant_end;
  is_stalemate := pos_stalemate;
  pieces := pos_pieces;
  attacks := fun p sq =>
    match assoc Nat.eqb sq (pos_attacks p) with Some l => l | None => [] end;
  king := fun p color => hd_error (rev (pos_pieces p KING color));
  color_at := fun p sq => option_map fst (assoc Nat.eqb sq (pos_placement p))
|}.

(** The store of a program that holds one board, at location [root]. *)
Definition root : loc := 1%positive.

Definition store_of (p : position) : state :=
  mkState (<[root := p]> ∅) [].

(** Black to move and stalemated: white king f7, white queen g6, black king
    h8 (FEN [7k/5K2/6Q1/8/8/8/8/8 b - - 0 1]).  On a [chess.Board] this is
    the outcome [Outcome(STALEMATE, None)]. *)
Definition stalemate_position : position := {|
  pos_turn := BLACK;
  pos_outcome := Some (mkOutcome STALEMATE None);
  pos_variant_end := false;
  pos_stalemate := true;
  pos_placement := [(46, (WHITE, QUEEN)); (53, (WHITE, KING)); (63, (BLACK, KING))]%nat;
  pos_attacks :=
    [(46, [1; 6; 10; 14; 19; 22; 28; 30; 37; 38; 39; 40; 41; 42; 43; 44; 45; 47;
           53; 54; 55; 62]);
     (53, [44; 45; 46; 52; 54; 60; 61; 62]);
     (63, [54; 55; 62])]%nat;
  pos_moves := []
|}.

(** Black to move and checkmated: white king f6, white queen g7, black
    king h8 (FEN [7k/6Q1/5K2/8/8/8/8/8 b - - 0 1]).  On a standard
    [chess.Board], [is_variant_end()] is [False] in every position and
    [is_stalemate()] is [False] when the side to move is in check. *)
Definition checkmate_position : position := {|
  pos_turn := BLACK;
  pos_outcome := Some (mkOutcome CHECKMATE (Some WHITE));
  pos_variant_end := false;
  pos_stalemate := false;
  pos_placement := [(45, (WHITE, KING)); (54, (WHITE, QUEEN)); (63, (BLACK, KING))]%nat;
  pos_attacks :=
    [(45, [36; 37; 38; 44; 46; 52; 53; 54]);
     (54, [6; 14; 22; 30; 38; 45; 46; 47; 48; 49; 50; 51; 52; 53; 55; 61; 62; 63]);
     (63, [54; 55; 62])]%nat;
  pos_moves := []
|}.

(** The mirror image: white to move and checkmated by queen g2 and king f3
    (FEN [8/8/8/8/8/5k2/6q1/7K w - - 0 1]). *)
Definition mated_white_position : position := {|
  pos_turn := WHITE;
  pos_outcome := Some (mkOutcome CHECKMATE (Some BLACK));
  pos_variant_end := false;
  pos_stalemate := false;
  pos_placement := [(7, (WHITE, KING)); (14, (BLACK, QUEEN)); (21, (BLACK, KING))]%nat;
  pos_attacks :=
    [(7, [6; 14; 15]);
     (14, [5; 6; 7; 8; 9; 10; 11; 12; 13; 15; 21; 22; 23; 30; 38; 46; 54; 62]);
     (21, [12; 13; 14; 20; 22; 28; 29; 30])]%nat;
  pos_moves := []
|}.

(** A hand-made game tree, with material only (no square attacks another).
    White, to move, may capture a pawn with the queen, which is then lost
    to a rook, or play a waiting move. *)
Definition after_recapture : position := {|
  pos_turn := WHITE;
  pos_outcome := None;
  pos_variant_end := false;
  pos_stalemate := false;
  pos_placement := [(4, (WHITE, KING)); (35, (BLACK, ROOK)); (60, (BLACK, KING))]%nat;
  pos_attacks := [];
  pos_moves := []
|}.

Definition after_grab : position := {|
  pos_turn := BLACK;
  pos_outcome := None;
  pos_variant_end := false;
  pos_stalemate := false;
  pos_placement := [(4, (WHITE, KING)); (35, (WHITE, QUEEN));
                    (59, (BLACK, ROOK)); (60, (BLACK, KING))]%nat;
  pos_attacks := [];
  pos_moves := [("d8d5"%string, after_recapture)]
|}.

Definition after_reply : position := {|
  pos_turn := WHITE;
  pos_outcome := None;
  pos_variant_end := false;
  pos_stalemate := false;
  pos_placement := [(3, (WHITE, QUEEN)); (12, (WHITE, KING)); (35, (BLACK, PAWN));
                    (52, (BLACK, KING)); (59, (BLACK, ROOK))]%nat;
  pos_attacks := [];
  pos_moves := []
|}.

Definition after_wait : position := {|
  pos_turn := BLACK;
  pos_outcome := None;
  pos_variant_end := false;
  pos_stalemate := false;
  pos_placement := [(3, (WHITE, QUEEN)); (12, (WHITE, KING)); (35, (BLACK, PAWN));
                    (59, (BLACK, ROOK)); (60, (BLACK, KING))]%nat;
  pos_attacks := [];
  pos_moves := [("e8e7"%string, after_reply)]
|}.

Definition trap_position : position := {|
  pos_turn := WHITE;
  pos_outcome := None;
  pos_variant_end := false;
  pos_stalemate := false;
  pos_placement := [(3, (WHITE, QUEEN)); (4, (WHITE, KING)); (35, (BLACK, PAWN));
                    (59, (BLACK, ROOK)); (60, (BLACK, KING))]%nat;
  pos_attacks := [];
  pos_moves := [("e1e2"%string, after_wait); ("d1d5"%string, after_grab)]
|}.

(** ** Root truncation, as the specification states it

    [suggest] would evaluate only the first [breadth] candidates of the
    sorted sequence. *)
Definition root_truncation_honored {E : RulesEngine}
    (st : state) (l : loc) (depth breadth : Z) : Prop :=
  forall candidates evals,
    fst (generate_candidates l breadth st) = Ok candidates ->
    fst (suggest_evals l depth breadth st) = Ok evals ->
    map fst evals = firstn (Z.to_nat breadth) candidates.

(** ** Notions used to describe the search *)

(** The number of plies [eval] looks ahead from [(depth, breadth)]: the
    depth, capped by the number of halvings that bring the breadth to zero
    plus one; a negative depth is only stopped by that cap. *)
Definition effective_depth (depth breadth : Z) : Z :=
  if (depth =? 0)%Z then 0%Z
  else if (breadth <=? 0)%Z then 1%Z
  else if (depth <? 0)%Z then (Z.log2 breadth + 2)%Z
  else Z.min depth (Z.log2 breadth + 2).

(** Positions that legal moves lead to. *)
Inductive reachable {E : RulesEngine} : Board -> Board -> Prop :=
| reachable_here b : reachable b b
| reachable_move b move b' :
    In move (legal_moves b) -> reachable (push b move) b' -> reachable b b'.

(** The exceptions a search from [b] can end with: the [TypeError] of a
    missing king, or the complaint about a position reached from [b] that
    has no candidate. *)
Definition search_error {E : RulesEngine} (b : Board) (e : exn) : Prop :=
  e = TypeError \/ exists b', reachable b b' /\ e = EvalsEmpty b'.

(** A computation that leaves the store and the standard output as they
    are. *)
Definition reads_only {E : RulesEngine} {A} (c : M A) : Prop :=
  forall st, snd (c st) = st.

(** A computation that writes nothing to standard output. *)
Definition silent {E : RulesEngine} {A} (c : M A) : Prop :=
  forall st, stdout (snd (c st)) = stdout st.

(** * Properties *)

(** ** The methods compute the value semantics and frame the store *)

Section Refinement.
Context {E : RulesEngine}.

(** [computes l b c r]: from every store in which [l] holds the snapshot
    [b], the computation [c] ends with the result [r], in a store that
    extends the initial one (every board that was there is unchanged). *)
Definition computes {A} (l : loc) (b : Board) (c : M A) (r : result A) : Prop :=
  forall st, heap st !! l = Some b ->
    exists st', c st = (r, st') /\ heap st ⊆ heap st'.

Lemma computes_ret {A} l b (a : A) : computes l b (ret a) (Ok a).
Proof. intros st _. exists st. split; [reflexivity | done]. Qed.

Lemma computes_raise {A} l b e : computes l b (raise e) (@Raise E A e).
Proof. intros st _. exists st. split; [reflexivity | done]. Qed.

Lemma computes_get_board l b : computes l b (get_board l) (Ok b).
Proof.
  intros st Hl. exists st. unfold get_board. rewrite Hl. split; [reflexivity | done].
Qed.

Lemma computes_bind {A B} l b (c : M A) (k : A -> M B) r k' :
  computes l b c r ->
  (forall a, r = Ok a -> computes l b (k a) (k' a)) ->
  computes l b (bind c k) (rbind r k').
Proof.
  intros Hc Hk st Hl.
  destruct (Hc st Hl) as (st1 & Hrun & Hsub).
  unfold bind. rewrite Hrun.
  destruct r as [a | e]; simpl.
  - destruct (Hk a eq_refl st1) as (st2 & Hrun2 & Hsub2).
    + eapply lookup_weaken; eassumption.
    + exists st2. split; [assumption | etrans; eassumption].
  - exists st1. split; [reflexivity | assumption].
Qed.

Lemma computes_query {A} l b (f : Board -> A) : computes l b (query f l) (Ok (f b)).
Proof.
  unfold query.
  change (Ok (f b)) with (rbind (Ok b) (fun b' => @Ok E A (f b'))).
  apply computes_bind; [apply computes_get_board | intros; apply computes_ret].
Qed.

Lemma computes_for_each {A B} l b (body : A -> M B) f xs :
  (forall x, computes l b (body x) (f x)) ->
  computes l b (for_each xs body) (rmap f xs).
Proof.
  intros Hbody. induction xs as [| x xs IH]; simpl.
  - apply computes_ret.
  - apply computes_bind; [apply Hbody | intros y _].
    apply computes_bind; [apply IH | intros ys _]. apply computes_ret.
Qed.

(** The body of a [with make_move(...)] block runs on a new object that
    holds the position after the move; the board it was copied from is
    untouched. *)
Lemma make_move_run {A} l b move (body : loc -> M A) st :
  heap st !! l = Some b ->
  let l' := fresh (dom (heap st)) in
  heap st !! l' = None /\
  make_move l move body st =
    body l' (mkState (<[l' := push b move]> (heap st)) (stdout st)).
Proof.
  intros Hl l'.
  assert (Hfresh : heap st !! l' = None).
  { apply not_elem_of_dom. apply is_fresh. }
  split; [assumption |].
  unfold make_move, bind, board_copy, board_push, bind, get_board.
  rewrite Hl. simpl. fold l'.
  rewrite lookup_insert_eq. simpl.
  rewrite insert_insert_eq. reflexivity.
Qed.

Lemma computes_make_move {A} l b move (body : loc -> M A) r :
  (forall l', computes l' (push b move) (body l') r) ->
  computes l b (make_move l move body) r.
Proof.
  intros Hbody st Hl.
  destruct (make_move_run l b move body st Hl) as [Hfresh ->].
  set (l' := fresh (dom (heap st))) in *.
  destruct (Hbody l' (mkState (<[l' := push b move]> (heap st)) (stdout st)))
    as (st' & Hrun & Hsub).
  - simpl. apply lookup_insert_eq.
  - exists st'. split; [assumption |].
    etrans; [| exact Hsub]. simpl. apply insert_subseteq. assumption.
Qed.

Lemma computes_get_material_score l b color :
  computes l b (get_material_score l color) (Ok (material_score_val b color)).
Proof.
  unfold get_material_score.
  change (Ok (material_score_val b color))
    with (rbind (Ok b) (fun b' => @Ok E Q (material_score_val b' color))).
  apply computes_bind; [apply computes_get_board | intros; apply computes_ret].
Qed.

Lemma computes_get_attacked_squares_score l b color :
  computes l b (get_attacked_squares_score l color)
           (Ok (attacked_squares_score_val b color)).
Proof.
  unfold get_attacked_squares_score.
  change (Ok (attacked_squares_score_val b color))
    with (rbind (Ok b) (fun b' => @Ok E Q (attacked_squares_score_val b' color))).
  apply computes_bind; [apply computes_get_board | intros; apply computes_ret].
Qed.

Lemma computes_get_king_safety_score l b color :
  computes l b (get_king_safety_score l color) (king_safety_score_val b color).
Proof.
  unfold get_king_safety_score.
  change (king_safety_score_val b color)
    with (rbind (Ok b) (fun b' => king_safety_score_val b' color)).
  apply computes_bind; [apply computes_get_board | intros a [= <-]].
  unfold king_safety_score_val. destruct (king b color).
  - apply computes_ret.
  - apply computes_raise.
Qed.

Lemma computes_bind_ok {A B} l b (c : M A) (k : A -> M B) a r :
  computes l b c (Ok a) ->
  computes l b (k a) r ->
  computes l b (bind c k) r.
Proof.
  intros Hc Hk.
  change r with (rbind (Ok a) (fun _ : A => r)).
  apply (computes_bind l b c k (Ok a) (fun _ => r)); [assumption |].
  intros a' [= <-]. assumption.
Qed.

Lemma computes_generate_candidates_with l b self_eval self_eval_val k :
  (forall l' b', computes l' b' (self_eval l' 0%Z 0%Z) (self_eval_val b')) ->
  computes l b (generate_candidates_with self_eval l k)
           (generate_candidates_with_val self_eval_val b).
Proof.
  intros Hev. unfold generate_candidates_with, generate_candidates_with_val.
  eapply computes_bind_ok; [apply computes_query |].
  apply computes_bind.
  - unfold scored_moves_val. apply computes_for_each. intros move.
    apply computes_make_move. intros l'.
    apply computes_bind; [apply Hev | intros; apply computes_ret].
  - intros evals _.
    eapply computes_bind_ok; [apply computes_query | apply computes_ret].
Qed.

Lemma computes_static l b :
  computes l b
    (material_white <- get_material_score l WHITE ;;
     material_black <- get_material_score l BLACK ;;
     attacked_white <- get_attacked_squares_score l WHITE ;;
     attacked_black <- get_attacked_squares_score l BLACK ;;
     safety_white <- get_king_safety_score l WHITE ;;
     safety_black <- get_king_safety_score l BLACK ;;
     ret (py_sum [material_white; - material_black;
                  attacked_white; - attacked_black;
                  safety_white; - safety_black]%Q))
    (static_val b).
Proof.
  eapply computes_bind_ok; [apply computes_get_material_score |].
  eapply computes_bind_ok; [apply computes_get_material_score |].
  eapply computes_bind_ok; [apply computes_get_attacked_squares_score |].
  eapply computes_bind_ok; [apply computes_get_attacked_squares_score |].
  unfold static_val.
  apply computes_bind; [apply computes_get_king_safety_score | intros sw _].
  apply computes_bind; [apply computes_get_king_safety_score | intros sb _].
  apply computes_ret.
Qed.

Lemma computes_select_extremum l b evals :
  computes l b (select_extremum l evals) (select_extremum_val b evals).
Proof.
  unfold select_extremum, select_extremum_val. destruct evals as [| v evals].
  - eapply computes_bind_ok; [apply computes_get_board | apply computes_raise].
  - eapply computes_bind_ok; [apply computes_query |].
    destruct (Bool.eqb (turn b) WHITE).
    + destruct (py_max_by id (py_or (v :: evals) [0.0%Q]));
        [apply computes_ret | apply computes_raise].
    + destruct (py_min_by id (py_or (v :: evals) [0.0%Q]));
        [apply computes_ret | apply computes_raise].
Qed.

Lemma computes_eval_body l b self_eval self_eval_val depth breadth :
  (forall l' b' d' k', computes l' b' (self_eval l' d' k') (self_eval_val b' d' k')) ->
  computes l b (eval_body self_eval l depth breadth)
           (eval_val_body self_eval_val b depth breadth).
Proof.
  intros Hev. unfold eval_body, eval_val_body.
  eapply computes_bind_ok; [apply computes_query |].
  destruct (outcome_and_winner_is (outcome b) WHITE); [apply computes_ret |].
  destruct (outcome_and_winner_is (outcome b) BLACK); [apply computes_ret |].
  destruct (truthy (outcome b) && is_None (outcome b)); [apply computes_ret |].
  destruct (depth =? 0)%Z; [apply computes_static |].
  apply computes_bind.
  { apply computes_generate_candidates_with. intros l' b'. apply Hev. }
  intros candidates _.
  apply computes_bind.
  { apply computes_for_each. intros move. apply computes_make_move.
    intros l'. apply Hev. }
  intros evals _. apply computes_select_extremum.
Qed.

(** [eval_fuel] on a board object computes [eval_val_fuel] of its state. *)
Lemma eval_fuel_value fuel : forall l b depth breadth,
  computes l b (eval_fuel fuel l depth breadth) (eval_val_fuel fuel b depth breadth).
Proof.
  induction fuel as [| fuel IH]; intros l b depth breadth; simpl;
    apply computes_eval_body; intros l' b' d' k'.
  - apply computes_raise.
  - apply IH.
Qed.

Lemma eval_value l b depth breadth :
  computes l b (eval l depth breadth) (eval_val b depth breadth).
Proof. apply eval_fuel_value. Qed.

Lemma generate_candidates_value l b k :
  computes l b (generate_candidates l k) (generate_candidates_val b).
Proof.
  apply computes_generate_candidates_with. intros l' b'. apply eval_value.
Qed.

(** The loop of [suggest] builds the list [root_evals_val]. *)
Lemma suggest_evals_value l b depth breadth :
  computes l b (suggest_evals l depth breadth) (root_evals_val b depth breadth).
Proof.
  unfold suggest_evals, root_evals_val.
  apply computes_bind; [apply generate_candidates_value | intros candidates _].
  apply computes_for_each. intros move. apply computes_make_move. intros l'.
  apply computes_bind; [apply eval_value | intros; apply computes_ret].
Qed.

Lemma computes_print l b s : computes l b (print s) (Ok tt).
Proof. intros st _. eexists. split; [reflexivity | done]. Qed.

Lemma suggest_value l b depth breadth :
  computes l b (suggest l depth breadth) (suggest_val b depth breadth).
Proof.
  unfold suggest, suggest_val.
  eapply computes_bind_ok; [apply computes_query |].
  destruct (is_variant_end b).
  { eapply computes_bind_ok; [apply computes_print | apply computes_ret]. }
  eapply computes_bind_ok; [apply computes_query |].
  destruct (is_stalemate b).
  { eapply computes_bind_ok; [apply computes_print | apply computes_ret]. }
  apply computes_bind; [apply suggest_evals_value | intros evals _].
  eapply computes_bind_ok; [apply computes_query |].
  destruct (Bool.eqb (turn b) WHITE).
  - destruct (py_max_by snd evals) as [[move score] |];
      [apply computes_ret | apply computes_raise].
  - destruct (py_min_by snd evals) as [[move score] |];
      [apply computes_ret | apply computes_raise].
Qed.

End Refinement.

(** ** Facts about the Python built-ins *)

Section Builtins.

Lemma Qltb_lt x y : Qltb x y = true <-> (x < y)%Q.
Proof.
  unfold Qltb. rewrite Qlt_alt. destruct (x ?= y)%Q; split; congruence.
Qed.

Lemma Qltb_ge x y : Qltb x y = false <-> (y <= x)%Q.
Proof.
  unfold Qltb. rewrite Qge_alt. destruct (x ?= y)%Q; split; congruence.
Qed.

Context {A : Type} (key : A -> Q).

Lemma insert_by_perm x l : Permutation (insert_by key x l) (x :: l).
Proof.
  induction l as [| y l IH]; simpl; [reflexivity |].
  destruct (Qltb (key y) (key x)); [| reflexivity].
  rewrite IH. apply perm_swap.
Qed.

Lemma stable_sort_perm l : Permutation (stable_sort key l) l.
Proof.
  induction l as [| x l IH]; simpl; [reflexivity |].
  rewrite insert_by_perm. apply perm_skip, IH.
Qed.

Lemma sorted_perm reverse l : Permutation (sorted key reverse l) l.
Proof.
  unfold sorted. destruct reverse.
  - rewrite <- Permutation_rev, stable_sort_perm, <- Permutation_rev. reflexivity.
  - apply stable_sort_perm.
Qed.

Lemma insert_by_ascending x l :
  StronglySorted (ascending key) l -> StronglySorted (ascending key) (insert_by key x l).
Proof.
  induction 1 as [| y l Hl IH Hy]; simpl.
  - constructor; constructor.
  - destruct (Qltb (key y) (key x)) eqn:Hcmp.
    + constructor; [assumption |].
      apply Qltb_lt, Qlt_le_weak in Hcmp.
      eapply Permutation_Forall; [symmetry; apply insert_by_perm |].
      constructor; assumption.
    + apply Qltb_ge in Hcmp.
      constructor; [constructor; assumption |].
      constructor; [exact Hcmp |].
      eapply Forall_impl; [exact Hy |].
      intros z Hz. unfold ascending in *. eapply Qle_trans; eassumption.
Qed.

Lemma stable_sort_ascending l : StronglySorted (ascending key) (stable_sort key l).
Proof.
  induction l as [| x l IH]; simpl; [constructor | apply insert_by_ascending, IH].
Qed.

Lemma StronglySorted_app_inv (R : A -> A -> Prop) l1 l2 :
  StronglySorted R l1 -> StronglySorted R l2 ->
  (forall x y, In x l1 -> In y l2 -> R x y) ->
  StronglySorted R (l1 ++ l2).
Proof.
  intros H1 H2 H12. induction H1 as [| x l1 Hl1 IH Hx]; simpl; [assumption |].
  constructor.
  - apply IH. intros; apply H12; [right |]; assumption.
  - apply Forall_app. split; [assumption |].
    apply List.Forall_forall. intros y Hy. apply H12; [left; reflexivity | assumption].
Qed.

Lemma rev_ascending l :
  StronglySorted (ascending key) l -> StronglySorted (descending key) (rev l).
Proof.
  induction 1 as [| x l Hl IH Hx]; simpl; [constructor |].
  apply StronglySorted_app_inv; [assumption | constructor; constructor |].
  intros y z Hy [<- | []]. apply in_rev in Hy.
  rewrite List.Forall_forall in Hx. apply (Hx y Hy).
Qed.

(** [sorted] orders the keys: non-increasing with [reverse=True],
    non-decreasing otherwise. *)
Lemma sorted_ordered (reverse : bool) l :
  StronglySorted (if reverse then descending key else ascending key)
                 (sorted key reverse l).
Proof.
  unfold sorted. destruct reverse.
  - apply rev_ascending, stable_sort_ascending.
  - apply stable_sort_ascending.
Qed.

(** [max] returns the first item of maximal key. *)
Lemma fold_max_first best rest pre mid :
  Forall (fun x => key x < key best)%Q pre ->
  Forall (fun x => key x <= key best)%Q mid ->
  exists pre' post',
    pre ++ best :: mid ++ rest = pre' ++ fold_left (max_step key) rest best :: post' /\
    Forall (fun x => key x < key (fold_left (max_step key) rest best))%Q pre' /\
    Forall (fun x => key x <= key (fold_left (max_step key) rest best))%Q post'.
Proof.
  revert best pre mid.
  induction rest as [| y rest IH]; intros best pre mid Hpre Hmid; simpl.
  - exists pre, mid. rewrite app_nil_r. auto.
  - change (max_step key best y) with (if Qltb (key best) (key y) then y else best).
    destruct (Qltb (key best) (key y)) eqn:Hcmp.
    + apply Qltb_lt in Hcmp.
      destruct (IH y (pre ++ best :: mid) []) as (pre' & post' & Heq & H1 & H2).
      * apply Forall_app. split; [| constructor; [assumption |]].
        -- eapply Forall_impl; [exact Hpre |]. intros z Hz. simpl in Hz.
           eapply Qlt_trans; eassumption.
        -- eapply Forall_impl; [exact Hmid |]. intros z Hz. simpl in Hz.
           eapply Qle_lt_trans; eassumption.
      * constructor.
      * exists pre', post'. split; [| auto].
        rewrite <- Heq. simpl. rewrite <- !app_assoc. reflexivity.
    + apply Qltb_ge in Hcmp.
      destruct (IH best pre (mid ++ [y])) as (pre' & post' & Heq & H1 & H2).
      * assumption.
      * apply Forall_app. split; [assumption | constructor; [assumption | constructor]].
      * exists pre', post'. split; [| auto].
        rewrite <- Heq. rewrite <- !app_assoc. reflexivity.
Qed.

Lemma py_max_by_first xs r :
  py_max_by key xs = Some r ->
  exists pre post, xs = pre ++ r :: post /\
    Forall (fun x => key x < key r)%Q pre /\ Forall (fun x => key x <= key r)%Q post.
Proof.
  destruct xs as [| x rest]; simpl; [discriminate |]. intros [= <-].
  destruct (fold_max_first x rest [] []) as (pre' & post' & Heq & H1 & H2);
    [constructor | constructor |].
  exists pre', post'. auto.
Qed.

(** [min] returns the first item of minimal key. *)
Lemma fold_min_first best rest pre mid :
  Forall (fun x => key best < key x)%Q pre ->
  Forall (fun x => key best <= key x)%Q mid ->
  exists pre' post',
    pre ++ best :: mid ++ rest = pre' ++ fold_left (min_step key) rest best :: post' /\
    Forall (fun x => key (fold_left (min_step key) rest best) < key x)%Q pre' /\
    Forall (fun x => key (fold_left (min_step key) rest best) <= key x)%Q post'.
Proof.
  revert best pre mid.
  induction rest as [| y rest IH]; intros best pre mid Hpre Hmid; simpl.
  - exists pre, mid. rewrite app_nil_r. auto.
  - change (min_step key best y) with (if Qltb (key y) (key best) then y else best).
    destruct (Qltb (key y) (key best)) eqn:Hcmp.
    + apply Qltb_lt in Hcmp.
      destruct (IH y (pre ++ best :: mid) []) as (pre' & post' & Heq & H1 & H2).
      * apply Forall_app. split; [| constructor; [assumption |]].
        -- eapply Forall_impl; [exact Hpre |]. intros z Hz. simpl in Hz.
           eapply Qlt_trans; eassumption.
        -- eapply Forall_impl; [exact Hmid |]. intros z Hz. simpl in Hz.
           eapply Qlt_le_trans; eassumption.
      * constructor.
      * exists pre', post'. split; [| auto].
        rewrite <- Heq. simpl. rewrite <- !app_assoc. reflexivity.
    + apply Qltb_ge in Hcmp.
      destruct (IH best pre (mid ++ [y])) as (pre' & post' & Heq & H1 & H2).
      * assumption.
      * apply Forall_app. split; [assumption | constructor; [assumption | constructor]].
      * exists pre', post'. split; [| auto].
        rewrite <- Heq. rewrite <- !app_assoc. reflexivity.
Qed.

Lemma py_min_by_first xs r :
  py_min_by key xs = Some r ->
  exists pre post, xs = pre ++ r :: post /\
    Forall (fun x => key r < key x)%Q pre /\ Forall (fun x => key r <= key x)%Q post.
Proof.
  destruct xs as [| x rest]; simpl; [discriminate |]. intros [= <-].
  destruct (fold_min_first x rest [] []) as (pre' & post' & Heq & H1 & H2);
    [constructor | constructor |].
  exists pre', post'. auto.
Qed.

End Builtins.

(** ** The recursion of [eval] *)

Section Recursion.
Context {E : RulesEngine}.

Lemma bind_ext {A B} (c c' : M A) (k k' : A -> M B) :
  (forall st, c st = c' st) ->
  (forall a st, k a st = k' a st) ->
  forall st, bind c k st = bind c' k' st.
Proof.
  intros Hc Hk st. unfold bind. rewrite Hc.
  destruct (c' st) as [[a | e] st']; [apply Hk | reflexivity].
Qed.

Lemma for_each_ext {A B} (body body' : A -> M B) xs :
  (forall x st, body x st = body' x st) ->
  forall st, for_each xs body st = for_each xs body' st.
Proof.
  intros Hbody. induction xs as [| x xs IH]; intros st; simpl; [reflexivity |].
  apply bind_ext; [apply Hbody | intros y st'].
  apply bind_ext; [apply IH | reflexivity].
Qed.

Lemma make_move_ext {A} l move (body body' : loc -> M A) :
  (forall l' st, body l' st = body' l' st) ->
  forall st, make_move l move body st = make_move l move body' st.
Proof.
  intros Hbody st. unfold make_move.
  apply bind_ext; [reflexivity | intros l' st'].
  apply bind_ext; [reflexivity | intros _ st'']. apply Hbody.
Qed.

(** [generate_candidates] calls [self.eval] with depth 0 and breadth 0
    only. *)
Lemma generate_candidates_with_ext ev ev' l k :
  (forall l' st, ev l' 0%Z 0%Z st = ev' l' 0%Z 0%Z st) ->
  forall st, generate_candidates_with ev l k st = generate_candidates_with ev' l k st.
Proof.
  intros Hev st. unfold generate_candidates_with.
  apply bind_ext; [reflexivity | intros moves st'].
  apply bind_ext; [| reflexivity].
  apply for_each_ext. intros move st''.
  apply make_move_ext. intros l' st3.
  apply bind_ext; [apply Hev | reflexivity].
Qed.

(** The body of [eval] calls [self.eval] with the budget (0, 0), to rank the
    candidates, and with the budget of the children, and with no other. *)
Lemma eval_body_ext ev ev' l depth breadth :
  (forall l' st, ev l' 0%Z 0%Z st = ev' l' 0%Z 0%Z st) ->
  (forall l' st,
     ev l' (if (breadth >? 0)%Z then depth - 1 else 0)%Z (breadth / 2)%Z st =
     ev' l' (if (breadth >? 0)%Z then depth - 1 else 0)%Z (breadth / 2)%Z st) ->
  forall st, eval_body ev l depth breadth st = eval_body ev' l depth breadth st.
Proof.
  intros H0 Hchild st. unfold eval_body.
  apply bind_ext; [reflexivity | intros o st'].
  destruct (outcome_and_winner_is o WHITE); [reflexivity |].
  destruct (outcome_and_winner_is o BLACK); [reflexivity |].
  destruct (truthy o && is_None o); [reflexivity |].
  destruct (depth =? 0)%Z; [reflexivity |].
  apply bind_ext; [apply generate_candidates_with_ext, H0 | intros candidates st''].
  apply bind_ext; [| reflexivity].
  apply for_each_ext. intros move st3. apply make_move_ext. apply Hchild.
Qed.

(** At depth 0 the body makes no recursive call. *)
Lemma eval_body_depth_0 ev ev' l breadth st :
  eval_body ev l 0%Z breadth st = eval_body ev' l 0%Z breadth st.
Proof.
  unfold eval_body.
  apply bind_ext; [reflexivity | intros o st'].
  destruct (outcome_and_winner_is o WHITE); [reflexivity |].
  destruct (outcome_and_winner_is o BLACK); [reflexivity |].
  destruct (truthy o && is_None o); reflexivity.
Qed.

(** The budget of a child call is smaller than the budget of its parent. *)
Lemma call_budget_child depth breadth :
  depth <> 0%Z ->
  call_budget (if (breadth >? 0)%Z then depth - 1 else 0)%Z (breadth / 2)%Z
  < call_budget depth breadth.
Proof.
  intros Hd. unfold call_budget at 2.
  destruct (Z.eqb_spec depth 0) as [| _]; [contradiction |].
  destruct (Z.gtb_spec breadth 0) as [Hpos | Hneg].
  - unfold call_budget.
    destruct (depth - 1 =? 0)%Z; [lia |].
    destruct (Z.gtb_spec (breadth / 2) 0) as [Hhalf | _]; [| lia].
    assert (2 <= breadth)%Z by (destruct (Z.le_gt_cases 2 breadth); [assumption |];
      assert (breadth = 1)%Z as -> by lia; discriminate).
    assert (Hlog : Z.log2 (breadth / 2) = (Z.log2 breadth - 1)%Z).
    { change 2%Z with (2 ^ 1)%Z at 1. rewrite <- Z.shiftr_div_pow2 by lia.
      rewrite Z.log2_shiftr by lia.
      pose proof (Z.log2_le_mono 2 breadth). change (Z.log2 2) with 1%Z in *. lia. }
    pose proof (Z.log2_nonneg (breadth / 2)). lia.
  - unfold call_budget. simpl. lia.
Qed.

(** The result of [eval_fuel] does not depend on the budget, once it covers
    [call_budget]. *)
Lemma eval_fuel_stable fuel1 : forall fuel2 l depth breadth st,
  call_budget depth breadth <= fuel1 ->
  call_budget depth breadth <= fuel2 ->
  eval_fuel fuel1 l depth breadth st = eval_fuel fuel2 l depth breadth st.
Proof.
  induction fuel1 as [| fuel1 IH]; intros fuel2 l depth breadth st H1 H2.
  - assert (depth = 0%Z) as ->.
    { unfold call_budget in H1. destruct (Z.eqb_spec depth 0); [assumption |].
      destruct (breadth >? 0)%Z; lia. }
    destruct fuel2; apply eval_body_depth_0.
  - destruct (Z.eq_dec depth 0%Z) as [-> | Hd].
    { destruct fuel2; apply eval_body_depth_0. }
    pose proof (call_budget_child depth breadth Hd) as Hchild.
    destruct fuel2 as [| fuel2]; [lia |]. simpl.
    apply eval_body_ext; intros l' st'; apply IH; try lia; apply Nat.le_0_l.
Qed.

Lemma eval_fuel_enough fuel l depth breadth st :
  call_budget depth breadth <= fuel ->
  eval_fuel fuel l depth breadth st = eval l depth breadth st.
Proof. intros H. apply eval_fuel_stable; [assumption | reflexivity]. Qed.

(** [eval] is the fixed point of its body: its recursive calls are calls
    of [eval]. *)
Lemma eval_unfold l depth breadth st :
  eval l depth breadth st = eval_body eval l depth breadth st.
Proof.
  unfold eval at 1.
  destruct (Z.eq_dec depth 0%Z) as [-> | Hd].
  { destruct (call_budget 0 breadth); apply eval_body_depth_0. }
  pose proof (call_budget_child depth breadth Hd) as Hchild.
  destruct (call_budget depth breadth) as [| fuel]; [lia |]. simpl.
  apply eval_body_ext; intros l' st'; apply eval_fuel_enough; [apply Nat.le_0_l | lia].
Qed.

End Recursion.

(** ** Facts about the value semantics *)

Section ValueFacts.
Context {E : RulesEngine}.

Lemma rmap_ok {A B} (f : A -> result B) xs ys :
  rmap f xs = Ok ys -> Forall2 (fun x y => f x = Ok y) xs ys.
Proof.
  revert ys. induction xs as [| x xs IH]; simpl; intros ys H.
  - injection H as <-. constructor.
  - destruct (f x) as [y | e] eqn:Hx; simpl in H; [| discriminate].
    destruct (rmap f xs) as [ys' | e]; simpl in H; [| discriminate].
    injection H as <-. constructor; [assumption | apply IH; reflexivity].
Qed.

Lemma rmap_total {A B} (f : A -> result B) xs :
  (forall x, In x xs -> exists y, f x = Ok y) -> exists ys, rmap f xs = Ok ys.
Proof.
  induction xs as [| x xs IH]; simpl; intros H.
  - eexists; reflexivity.
  - destruct (H x) as [y ->]; [left; reflexivity |].
    destruct IH as [ys ->]; [intros; apply H; right; assumption |].
    eexists; reflexivity.
Qed.

Lemma rmap_raise {A B} (f : A -> result B) xs e :
  rmap f xs = Raise e -> exists x, In x xs /\ f x = Raise e.
Proof.
  induction xs as [| x xs IH]; simpl; intros H; [discriminate |].
  destruct (f x) as [y | e'] eqn:Hx; simpl in H.
  - destruct (rmap f xs) as [ys | e'']; simpl in H; [discriminate |].
    destruct IH as (x' & Hin & Hx'); [assumption |]. exists x'. auto.
  - exists x. split; [left; reflexivity | congruence].
Qed.

(** A list of (move, score) pairs built move by move lists the moves in
    order. *)
Lemma rmap_scored_fst {A} (f : A -> result Q) xs (evals : list (A * Q)) :
  rmap (fun x => rbind (f x) (fun s => Ok (x, s))) xs = Ok evals ->
  map fst evals = xs /\ Forall (fun e => f (fst e) = Ok (snd e)) evals.
Proof.
  intros H. apply rmap_ok in H.
  induction H as [| x [x' s] xs evals Hx _ [IH1 IH2]]; simpl; [split; constructor |].
  destruct (f x) as [s' |] eqn:Hfx; simpl in Hx; [| discriminate].
  injection Hx as <- <-.
  split; [f_equal; assumption | constructor; assumption].
Qed.

Lemma static_val_no_recursion_error b : static_val b <> Raise RecursionError.
Proof.
  unfold static_val, king_safety_score_val.
  destruct (king b WHITE); simpl; [| discriminate].
  destruct (king b BLACK); simpl; discriminate.
Qed.

(** The budget supplied by [eval] is never used up. *)
Lemma eval_val_fuel_no_recursion_error fuel : forall b depth breadth,
  call_budget depth breadth <= fuel ->
  eval_val_fuel fuel b depth breadth <> Raise RecursionError.
Proof.
  induction fuel as [| fuel IH]; intros b depth breadth Hfuel; simpl;
    unfold eval_val_body;
    destruct (outcome_and_winner_is (outcome b) WHITE); try discriminate;
    destruct (outcome_and_winner_is (outcome b) BLACK); try discriminate;
    destruct (truthy (outcome b) && is_None (outcome b)); try discriminate;
    destruct (Z.eqb_spec depth 0) as [| Hd]; try apply static_val_no_recursion_error.
  - exfalso. unfold call_budget in Hfuel.
    destruct (Z.eqb_spec depth 0); [contradiction |]. destruct (breadth >? 0)%Z; lia.
  - pose proof (call_budget_child depth breadth Hd) as Hchild.
    unfold generate_candidates_with_val, scored_moves_val.
    destruct (rmap _ (legal_moves b)) as [scored | e] eqn:Hscored; simpl.
    2:{ intros [= ->]. apply rmap_raise in Hscored as (move & _ & Hmove).
        destruct (eval_val_fuel fuel (push b move) 0 0) eqn:Hev; simpl in Hmove;
          [discriminate |].
        injection Hmove as ->. revert Hev. apply IH, Nat.le_0_l. }
    destruct (rmap _ (map fst _)) as [evals | e] eqn:Hevals; simpl.
    2:{ intros [= ->]. apply rmap_raise in Hevals as (move & _ & Hmove).
        revert Hmove. apply IH. unfold child_depth, child_breadth. lia. }
    unfold select_extremum_val.
    destruct evals as [| v evals]; [discriminate |].
    destruct (Bool.eqb (turn b) WHITE).
    + destruct (py_max_by id _); discriminate.
    + destruct (py_min_by id _); discriminate.
Qed.

Lemma eval_val_no_recursion_error b depth breadth :
  eval_val b depth breadth <> Raise RecursionError.
Proof. apply eval_val_fuel_no_recursion_error. reflexivity. Qed.

(** [eval] at depth 0, on a position without outcome, is the six-term sum. *)
Lemma eval_val_depth_0 b breadth :
  outcome b = None -> eval_val b 0 breadth = static_val b.
Proof.
  intros Ho. unfold eval_val. simpl. unfold eval_val_body. rewrite Ho. reflexivity.
Qed.

(** With both kings on the board, [eval] at depth 0 returns a score. *)
Lemma eval_val_depth_0_total b breadth white_king black_king :
  king b WHITE = Some white_king ->
  king b BLACK = Some black_king ->
  exists score, eval_val b 0 breadth = Ok score.
Proof.
  intros Hw Hb. unfold eval_val. simpl. unfold eval_val_body.
  destruct (outcome_and_winner_is (outcome b) WHITE); [eexists; reflexivity |].
  destruct (outcome_and_winner_is (outcome b) BLACK); [eexists; reflexivity |].
  destruct (truthy (outcome b) && is_None (outcome b)); [eexists; reflexivity |].
  simpl. unfold static_val, king_safety_score_val. rewrite Hw, Hb. simpl.
  eexists; reflexivity.
Qed.

(** A drawn outcome is not recognised: the position is scored like one
    without outcome. *)
Lemma eval_val_draw_depth_0 b o breadth :
  outcome b = Some o -> winner o = None -> eval_val b 0 breadth = static_val b.
Proof.
  intros Ho Hw. unfold eval_val. simpl. unfold eval_val_body. rewrite Ho. simpl.
  rewrite Hw. reflexivity.
Qed.

End ValueFacts.

(** ** Runs of the methods *)

Section Runs.
Context {E : RulesEngine}.

Lemma computes_fst {A} l b (c : M A) r st :
  computes l b c r -> heap st !! l = Some b -> fst (c st) = r.
Proof. intros Hc Hl. destruct (Hc st Hl) as (st' & -> & _). reflexivity. Qed.

Lemma computes_frame {A} l b (c : M A) r st :
  computes l b c r -> heap st !! l = Some b -> heap st ⊆ heap (snd (c st)).
Proof. intros Hc Hl. destruct (Hc st Hl) as (st' & -> & Hsub). exact Hsub. Qed.

Lemma query_run {A} (f : Board -> A) l b st :
  heap st !! l = Some b -> query f l st = (Ok (f b), st).
Proof. intros Hl. unfold query, bind, get_board. rewrite Hl. reflexivity. Qed.

Lemma not_truthy_and_None {A} (o : option A) : truthy o && is_None o = false.
Proof. destruct o; reflexivity. Qed.

(** The value semantics of [eval] is the fixed point of its body. *)
Lemma eval_val_unfold b depth breadth :
  eval_val b depth breadth = eval_val_body eval_val b depth breadth.
Proof.
  set (st := mkState (<[1%positive := b]> ∅) []).
  assert (Hl : heap st !! 1%positive = Some b) by apply lookup_insert_eq.
  rewrite <- (computes_fst _ _ _ _ st (eval_value 1%positive b depth breadth) Hl).
  rewrite eval_unfold.
  apply (computes_fst 1%positive b); [| exact Hl].
  apply computes_eval_body. intros. apply eval_value.
Qed.

(** [eval] never runs out of budget. *)
Lemma eval_no_recursion_error st l depth breadth :
  fst (eval l depth breadth st) <> Raise RecursionError.
Proof.
  destruct (heap st !! l) as [b |] eqn:Hl.
  - rewrite (computes_fst _ _ _ _ st (eval_value l b depth breadth) Hl).
    apply eval_val_no_recursion_error.
  - rewrite eval_unfold. unfold eval_body, bind, query, bind, get_board.
    rewrite Hl. discriminate.
Qed.

Lemma eval_val_decisive b o depth breadth :
  outcome b = Some o ->
  (winner o = Some WHITE -> eval_val b depth breadth = Ok 1000.0%Q) /\
  (winner o = Some BLACK -> eval_val b depth breadth = Ok (- 1000.0)%Q).
Proof.
  intros Ho. rewrite eval_val_unfold. unfold eval_val_body. rewrite Ho. simpl.
  split; intros ->; reflexivity.
Qed.

(** The end of [eval] returns one of the evaluations it is given. *)
Lemma select_extremum_member st l b evals :
  heap st !! l = Some b ->
  evals <> [] ->
  exists v, fst (select_extremum l evals st) = Ok v /\ In v evals.
Proof.
  intros Hl Hne.
  rewrite (computes_fst _ _ _ _ st (computes_select_extremum l b evals) Hl).
  unfold select_extremum_val. destruct evals as [| v0 evals]; [contradiction |].
  simpl py_or. destruct (Bool.eqb (turn b) WHITE).
  - destruct (py_max_by id (v0 :: evals)) as [v |] eqn:Hmax; [| discriminate].
    exists v. split; [reflexivity |].
    apply py_max_by_first in Hmax as (pre & post & -> & _).
    apply in_or_app. right. left. reflexivity.
  - destruct (py_min_by id (v0 :: evals)) as [v |] eqn:Hmin; [| discriminate].
    exists v. split; [reflexivity |].
    apply py_min_by_first in Hmin as (pre & post & -> & _).
    apply in_or_app. right. left. reflexivity.
Qed.

End Runs.

(** ** The evaluator against its specification *)

Section Evaluator.
Context {E : RulesEngine}.

Lemma material_score_spec b side :
  (material_score_val b side == spec_material b side)%Q.
Proof. unfold material_score_val, spec_material, piece_types. simpl. ring. Qed.

Lemma fold_attacks_sum b squares acc :
  fold_left (fun score square => (score + Z.of_nat (length (attacks b square)))%Z)
            squares acc =
  (acc + Z.of_nat (list_sum (map (fun sq => length (attacks b sq)) squares)))%Z.
Proof.
  revert acc. induction squares as [| sq squares IH]; intros acc; simpl; [lia |].
  rewrite IH. unfold list_sum. lia.
Qed.

Lemma attacked_squares_score_spec b side :
  (attacked_squares_score_val b side == spec_mobility b side)%Q.
Proof.
  unfold attacked_squares_score_val, spec_mobility, squares_of, piece_types. simpl.
  rewrite !fold_attacks_sum, app_nil_r, !map_app, !list_sum_app.
  rewrite Qmult_comm. apply Qmult_comp; [reflexivity |].
  apply inject_Z_injective. lia.
Qed.

Lemma fold_count_friendly b side squares acc :
  fold_left (fun score square =>
               (score + (if opt_color_eqb (color_at b square) side then 1 else 0))%Z)
            squares acc =
  (acc + Z.of_nat (length (List.filter (fun sq => opt_color_eqb (color_at b sq) side)
                                  squares)))%Z.
Proof.
  revert acc. induction squares as [| sq squares IH]; intros acc; simpl; [lia |].
  rewrite IH. destruct (opt_color_eqb (color_at b sq) side); simpl length; lia.
Qed.

Lemma king_safety_score_spec b side king_square :
  king b side = Some king_square ->
  exists v, king_safety_score_val b side = Ok v /\
            (v == spec_king_safety b side king_square)%Q.
Proof.
  intros Hk. unfold king_safety_score_val, spec_king_safety. rewrite Hk.
  eexists. split; [reflexivity |].
  rewrite fold_count_friendly. simpl. apply Qmult_comm.
Qed.

Lemma static_val_spec b white_king black_king :
  king b WHITE = Some white_king ->
  king b BLACK = Some black_king ->
  exists v, static_val b = Ok v /\
    (v == spec_material b WHITE - spec_material b BLACK
          + spec_mobility b WHITE - spec_mobility b BLACK
          + spec_king_safety b WHITE white_king
          - spec_king_safety b BLACK black_king)%Q.
Proof.
  intros Hw Hb. unfold static_val.
  destruct (king_safety_score_spec b WHITE white_king Hw) as (sw & -> & Hsw).
  destruct (king_safety_score_spec b BLACK black_king Hb) as (sb & -> & Hsb).
  simpl. eexists. split; [reflexivity |].
  unfold py_sum. simpl.
  rewrite !material_score_spec, !attacked_squares_score_spec, Hsw, Hsb. ring.
Qed.

End Evaluator.

(** ** Candidate generation *)

Section Candidates.
Context {E : RulesEngine}.

Lemma generate_candidates_val_perm b candidates :
  generate_candidates_val b = Ok candidates ->
  Permutation candidates (legal_moves b).
Proof.
  unfold generate_candidates_val, generate_candidates_with_val, scored_moves_val.
  destruct (rmap _ (legal_moves b)) as [evals | e] eqn:Hevals; simpl; [| discriminate].
  intros [= <-]. apply rmap_scored_fst in Hevals as [<- _].
  apply Permutation_map, sorted_perm.
Qed.

Lemma generate_candidates_val_sorted b :
  (forall move, In move (legal_moves b) ->
     exists score, eval_val (push b move) 0 0 = Ok score) ->
  exists scored : list (Move * Q),
    generate_candidates_val b = Ok (map fst scored) /\
    Permutation (map fst scored) (legal_moves b) /\
    Forall (fun e => eval_val (push b (fst e)) 0 0 = Ok (snd e)) scored /\
    StronglySorted (if Bool.eqb (turn b) WHITE then descending snd else ascending snd)
                   scored.
Proof.
  intros Hscore.
  destruct (rmap_total
              (fun move => rbind (eval_val (push b move) 0 0)
                                 (fun score => Ok (move, score)))
              (legal_moves b)) as [evals Hevals].
  { intros move Hin. destruct (Hscore move Hin) as [score ->]. eexists; reflexivity. }
  exists (sorted snd (Bool.eqb (turn b) WHITE) evals).
  assert (Hgen : generate_candidates_val b =
                 Ok (map fst (sorted snd (Bool.eqb (turn b) WHITE) evals))).
  { unfold generate_candidates_val, generate_candidates_with_val, scored_moves_val.
    rewrite Hevals. reflexivity. }
  split; [exact Hgen |].
  split; [apply generate_candidates_val_perm, Hgen |].
  split; [| apply sorted_ordered].
  apply rmap_scored_fst in Hevals as [_ Hall].
  eapply Permutation_Forall; [symmetry; apply sorted_perm | exact Hall].
Qed.

End Candidates.

(** ** The claims of the specification *)

Section Claims.
Context {E : RulesEngine}.

(** C5: on a position whose outcome is decisive, [eval] returns exactly
    1000.0 if White has won and exactly -1000.0 if Black has won, for every
    depth and every breadth. *)
Theorem eval_decisive_outcome st l b o depth breadth :
  heap st !! l = Some b ->
  outcome b = Some o ->
  (winner o = Some WHITE -> fst (eval l depth breadth st) = Ok 1000.0%Q) /\
  (winner o = Some BLACK -> fst (eval l depth breadth st) = Ok (- 1000.0)%Q).
Proof.
  intros Hl Ho.
  rewrite (computes_fst _ _ _ _ st (eval_value l b depth breadth) Hl).
  apply (eval_val_decisive b o); assumption.
Qed.

(** C9: on a position without outcome, at a depth above zero, when the
    generation of candidates yields no move, [eval] raises the exception
    that carries the position; no score is returned.  When there are
    evaluations, the value selected is one of them: the fallback list
    [[0.0]] is never used. *)
Theorem eval_no_candidates_raises st l b depth breadth :
  heap st !! l = Some b ->
  outcome b = None ->
  (0 < depth)%Z ->
  fst (generate_candidates l (if (breadth =? 0)%Z then 1 else breadth)%Z st) = Ok [] ->
  fst (eval l depth breadth st) = Raise (EvalsEmpty b) /\
  forall evals, evals <> [] ->
    exists v, fst (select_extremum l evals st) = Ok v /\ In v evals.
Proof.
  intros Hl Ho Hd Hgen.
  split; [| intros evals Hne; eapply select_extremum_member; eassumption].
  rewrite (computes_fst _ _ _ _ st (generate_candidates_value l b _) Hl) in Hgen.
  rewrite (computes_fst _ _ _ _ st (eval_value l b depth breadth) Hl).
  rewrite eval_val_unfold. unfold eval_val_body. rewrite Ho. simpl.
  destruct (Z.eqb_spec depth 0) as [-> | _]; [lia |].
  fold (generate_candidates_val b). rewrite Hgen. reflexivity.
Qed.

(** C10: every exploration step runs on a new object, a copy of the board
    with the move pushed on it, and after a call of [eval], [suggest] or
    [generate_candidates] the board passed in, like every board that was in
    the store, holds what it held before. *)
Theorem exploration_leaves_boards_unchanged st l b depth breadth :
  heap st !! l = Some b ->
  (forall A (body : loc -> M A) move,
     exists new_board,
       heap st !! new_board = None /\
       make_move l move body st =
         body new_board
              (mkState (<[new_board := push b move]> (heap st)) (stdout st))) /\
  (heap st ⊆ heap (snd (eval l depth breadth st)) /\
   heap (snd (eval l depth breadth st)) !! l = Some b) /\
  (heap st ⊆ heap (snd (suggest l depth breadth st)) /\
   heap (snd (suggest l depth breadth st)) !! l = Some b) /\
  (heap st ⊆ heap (snd (generate_candidates l breadth st)) /\
   heap (snd (generate_candidates l breadth st)) !! l = Some b).
Proof.
  intros Hl.
  assert (Hkeep : forall st', heap st ⊆ heap st' ->
            heap st ⊆ heap st' /\ heap st' !! l = Some b).
  { intros st' Hsub. split; [assumption | eapply lookup_weaken; eassumption]. }
  split; [| repeat split].
  - intros A body move. exists (fresh (dom (heap st))).
    apply (make_move_run l b move body st Hl).
  - eapply computes_frame; [apply eval_value | exact Hl].
  - eapply Hkeep, computes_frame; [apply eval_value | exact Hl].
  - eapply computes_frame; [apply suggest_value | exact Hl].
  - eapply Hkeep, computes_frame; [apply suggest_value | exact Hl].
  - eapply computes_frame; [apply generate_candidates_value | exact Hl].
  - eapply Hkeep, computes_frame; [apply generate_candidates_value | exact Hl].
Qed.

(** C6: on a position without outcome, [eval] at depth 0 is the six-term
    sum: material of White minus material of Black, with the weights pawn
    1.0, king 2.5, knight 3.0, bishop 3.5, rook 5.0 and queen 9.0, plus the
    difference of the mobilities, 0.1 times the number of attacked squares,
    plus the difference of the king safeties, 0.2 times the number of
    squares attacked by the king of a side that hold a piece of that side. *)
Theorem eval_depth_0_static_formula st l b breadth white_king black_king :
  heap st !! l = Some b ->
  outcome b = None ->
  king b WHITE = Some white_king ->
  king b BLACK = Some black_king ->
  exists v, fst (eval l 0 breadth st) = Ok v /\
    (v == spec_material b WHITE - spec_material b BLACK
          + spec_mobility b WHITE - spec_mobility b BLACK
          + spec_king_safety b WHITE white_king
          - spec_king_safety b BLACK black_king)%Q.
Proof.
  intros Hl Ho Hw Hb.
  rewrite (computes_fst _ _ _ _ st (eval_value l b 0 breadth) Hl).
  rewrite eval_val_depth_0 by assumption.
  apply static_val_spec; assumption.
Qed.

(** C7: [generate_candidates] returns, whatever [k], a permutation of all
    the legal moves, ordered by the score of the position each move leads
    to: non-increasing when White is to move, non-decreasing otherwise. *)
Theorem generate_candidates_sorted_permutation st l b k :
  heap st !! l = Some b ->
  (forall move, In move (legal_moves b) ->
     exists score, eval_val (push b move) 0 0 = Ok score) ->
  exists scored : list (Move * Q),
    fst (generate_candidates l k st) = Ok (map fst scored) /\
    Permutation (map fst scored) (legal_moves b) /\
    Forall (fun e => eval_val (push b (fst e)) 0 0 = Ok (snd e)) scored /\
    StronglySorted (if Bool.eqb (turn b) WHITE then descending snd else ascending snd)
                   scored.
Proof.
  intros Hl Hscore.
  rewrite (computes_fst _ _ _ _ st (generate_candidates_value l b k) Hl).
  apply generate_candidates_val_sorted, Hscore.
Qed.

(** C8: a recursive step of [eval], at a depth above zero, calls [eval] on
    every candidate with breadth [breadth // 2] and with depth [depth - 1]
    if [breadth > 0], depth 0 otherwise; from breadth 10 the children get
    breadth 5 and the grandchildren breadth 2; below a call with breadth 0
    the positions are scored statically. *)
Theorem eval_child_budget st l b depth breadth :
  heap st !! l = Some b ->
  outcome_and_winner_is (outcome b) WHITE = false ->
  outcome_and_winner_is (outcome b) BLACK = false ->
  (0 < depth)%Z ->
  eval l depth breadth st =
    (candidates <- generate_candidates l (if (breadth =? 0)%Z then 1 else breadth)%Z ;;
     evals <- for_each candidates (fun move =>
                make_move l move (fun new_board =>
                  eval new_board
                       (if (breadth >? 0)%Z then depth - 1 else 0)%Z
                       (breadth / 2)%Z)) ;;
     select_extremum l evals) st /\
  (child_breadth 10 = 5%Z /\ child_breadth 5 = 2%Z /\
   child_depth depth breadth = (if (breadth >? 0)%Z then depth - 1 else 0)%Z /\
   child_breadth breadth = (breadth / 2)%Z) /\
  (breadth = 0%Z ->
   forall new_board b' st',
     heap st' !! new_board = Some b' ->
     outcome b' = None ->
     fst (eval new_board (if (breadth >? 0)%Z then depth - 1 else 0)%Z
               (breadth / 2)%Z st') = static_val b').
Proof.
  intros Hl Hwhite Hblack Hd. split; [| split; [repeat split |]].
  - rewrite eval_unfold. unfold eval_body at 1, bind at 1.
    rewrite (query_run _ l b st Hl), Hwhite, Hblack, not_truthy_and_None.
    destruct (Z.eqb_spec depth 0) as [-> | _]; [lia |]. reflexivity.
  - intros -> new_board b' st' Hl' Ho'.
    change (fst (eval new_board 0 0 st') = static_val b').
    rewrite (computes_fst _ _ _ _ st' (eval_value new_board b' 0 0) Hl').
    apply eval_val_depth_0, Ho'.
Qed.

(** C3, amended: [suggest] evaluates every candidate that
    [generate_candidates] returns, in that order, whatever [breadth] is,
    and all of them compete for the selection: the list [evals] holds one
    entry for each legal move of the root, [suggest] selects among the
    whole of that list, and no legal move of the root has an evaluation
    better for the side to move than the one returned. *)
Theorem suggest_evaluates_every_candidate st l b depth breadth :
  heap st !! l = Some b ->
  fst (suggest_evals l depth breadth st) =
    rbind (generate_candidates_val b) (fun candidates =>
      rmap (fun move => rbind (eval_val (push b move) depth breadth)
                              (fun score => Ok (move, score)))
           candidates) /\
  (forall evals,
     fst (suggest_evals l depth breadth st) = Ok evals ->
     fst (generate_candidates l breadth st) = Ok (map fst evals) /\
     Permutation (map fst evals) (legal_moves b) /\
     length evals = length (legal_moves b)) /\
  (is_variant_end b = false -> is_stalemate b = false ->
   fst (suggest l depth breadth st) =
     rbind (fst (suggest_evals l depth breadth st)) (fun evals =>
       match (if Bool.eqb (turn b) WHITE then py_max_by snd evals
              else py_min_by snd evals) with
       | Some (move, score) => Ok (ScoredPair move score)
       | None => Raise ValueError
       end)) /\
  (forall move score,
     fst (suggest l depth breadth st) = Ok (ScoredPair move score) ->
     In move (legal_moves b) /\
     forall move', In move' (legal_moves b) ->
       exists score',
         fst (make_move l move' (fun tmp_board => eval tmp_board depth breadth) st)
           = Ok score' /\
         if Bool.eqb (turn b) WHITE then (score' <= score)%Q else (score <= score')%Q).
Proof.
  intros Hl.
  rewrite (computes_fst _ _ _ _ st (suggest_evals_value l b depth breadth) Hl).
  rewrite (computes_fst _ _ _ _ st (generate_candidates_value l b breadth) Hl).
  rewrite (computes_fst _ _ _ _ st (suggest_value l b depth breadth) Hl).
  assert (Hexplore : forall move',
            fst (make_move l move' (fun tmp_board => eval tmp_board depth breadth) st)
            = eval_val (push b move') depth breadth).
  { intros move'. apply (computes_fst l b); [| exact Hl].
    apply computes_make_move. intros l'. apply eval_value. }
  split; [reflexivity |]. split; [| split].
  - intros evals. unfold root_evals_val.
    destruct (generate_candidates_val b) as [candidates | e] eqn:Hgen; simpl;
      [| discriminate].
    intros Hevals. apply rmap_scored_fst in Hevals as [Hfst _].
    pose proof (generate_candidates_val_perm b candidates Hgen) as Hperm.
    rewrite Hfst. split; [reflexivity |]. split; [assumption |].
    rewrite <- (length_map fst evals), Hfst. apply Permutation_length, Hperm.
  - intros Hend Hstale. unfold suggest_val. rewrite Hend, Hstale.
    destruct (root_evals_val b depth breadth) as [evals | e]; simpl; [| reflexivity].
    destruct (Bool.eqb (turn b) WHITE); reflexivity.
  - intros move score. unfold suggest_val, root_evals_val.
    destruct (is_variant_end b); [discriminate |].
    destruct (is_stalemate b); [discriminate |].
    destruct (generate_candidates_val b) as [candidates |] eqn:Hgen; simpl;
      [| discriminate].
    apply generate_candidates_val_perm in Hgen.
    destruct (rmap _ candidates) as [evals |] eqn:Hevals; simpl; [| discriminate].
    apply rmap_scored_fst in Hevals as [Hfst Hall].
    rewrite List.Forall_forall in Hall.
    intros Hsel.
    assert (Hbest : In (move, score) evals /\
              forall e, In e evals ->
                if Bool.eqb (turn b) WHITE then (snd e <= score)%Q
                else (score <= snd e)%Q).
    { destruct (Bool.eqb (turn b) WHITE).
      - destruct (py_max_by snd evals) as [[m s] |] eqn:Hmax; [| discriminate].
        injection Hsel as -> ->.
        apply py_max_by_first in Hmax as (pre & post & -> & Hpre & Hpost).
        rewrite List.Forall_forall in Hpre, Hpost.
        split; [apply in_or_app; right; left; reflexivity |].
        intros e He. apply in_app_or in He as [He | [<- | He]].
        + apply Qlt_le_weak, (Hpre e He).
        + apply Qle_refl.
        + apply (Hpost e He).
      - destruct (py_min_by snd evals) as [[m s] |] eqn:Hmin; [| discriminate].
        injection Hsel as -> ->.
        apply py_min_by_first in Hmin as (pre & post & -> & Hpre & Hpost).
        rewrite List.Forall_forall in Hpre, Hpost.
        split; [apply in_or_app; right; left; reflexivity |].
        intros e He. apply in_app_or in He as [He | [<- | He]].
        + apply Qlt_le_weak, (Hpre e He).
        + apply Qle_refl.
        + apply (Hpost e He). }
    destruct Hbest as [Hin Hbest]. split.
    + eapply Permutation_in; [exact Hgen |].
      rewrite <- Hfst. apply (in_map fst _ _ Hin).
    + intros move' Hmove'.
      apply (Permutation_in _ (Permutation_sym Hgen)) in Hmove'.
      rewrite <- Hfst in Hmove'. apply List.in_map_iff in Hmove' as (e & <- & He).
      exists (snd e). split; [rewrite Hexplore; apply (Hall e He) | apply (Hbest e He)].
Qed.

End Claims.

(** ** What [suggest] selects *)

Section Selection.
Context {E : RulesEngine}.

(** A root that the engine flags as ended by a variant rule, or as
    stalemate, gets no move. *)
Lemma suggest_flagged_root st l b depth breadth :
  heap st !! l = Some b ->
  is_variant_end b = true \/ is_stalemate b = true ->
  fst (suggest l depth breadth st) = Ok NoMove.
Proof.
  intros Hl Hflag.
  rewrite (computes_fst _ _ _ _ st (suggest_value l b depth breadth) Hl).
  unfold suggest_val. destruct (is_variant_end b); [reflexivity |].
  destruct Hflag as [| ->]; [discriminate | reflexivity].
Qed.

(** A root without legal move that neither flag covers makes [suggest]
    raise: the maximum or the minimum of an empty list is asked for. *)
Lemma suggest_unflagged_dead_root st l b depth breadth :
  heap st !! l = Some b ->
  is_variant_end b = false ->
  is_stalemate b = false ->
  legal_moves b = [] ->
  fst (suggest l depth breadth st) = Raise ValueError.
Proof.
  intros Hl Hend Hstale Hmoves.
  rewrite (computes_fst _ _ _ _ st (suggest_value l b depth breadth) Hl).
  unfold suggest_val, root_evals_val, generate_candidates_val,
    generate_candidates_with_val, scored_moves_val, sorted.
  rewrite Hend, Hstale, Hmoves.
  destruct (Bool.eqb (turn b) WHITE); reflexivity.
Qed.

(** Otherwise the result is the first entry of [evals] whose score is
    maximal, for White, or minimal, for Black: the entry itself, a
    (move, score) tuple. *)
Lemma suggest_first_extremal_entry st l b depth breadth evals :
  heap st !! l = Some b ->
  is_variant_end b = false ->
  is_stalemate b = false ->
  root_evals_val b depth breadth = Ok evals ->
  evals <> [] ->
  exists move score pre post,
    fst (suggest l depth breadth st) = Ok (ScoredPair move score) /\
    evals = pre ++ (move, score) :: post /\
    if Bool.eqb (turn b) WHITE then
      Forall (fun e => snd e < score)%Q pre /\ Forall (fun e => snd e <= score)%Q post
    else
      Forall (fun e => score < snd e)%Q pre /\ Forall (fun e => score <= snd e)%Q post.
Proof.
  intros Hl Hend Hstale Hevals Hne.
  rewrite (computes_fst _ _ _ _ st (suggest_value l b depth breadth) Hl).
  unfold suggest_val. rewrite Hend, Hstale, Hevals. simpl.
  destruct (Bool.eqb (turn b) WHITE).
  - destruct (py_max_by snd evals) as [[move score] |] eqn:Hmax.
    + apply py_max_by_first in Hmax as (pre & post & Heq & Hpre & Hpost).
      exists move, score, pre, post. auto.
    + destruct evals; [contradiction | discriminate].
  - destruct (py_min_by snd evals) as [[move score] |] eqn:Hmin.
    + apply py_min_by_first in Hmin as (pre & post & Heq & Hpre & Hpost).
      exists move, score, pre, post. auto.
    + destruct evals; [contradiction | discriminate].
Qed.

(** A drawn outcome does not stop [eval]: at depth 0 the position is scored
    by the six-term sum, and deeper a position without legal move raises. *)
Lemma eval_drawn_outcome st l b o breadth :
  heap st !! l = Some b ->
  outcome b = Some o ->
  winner o = None ->
  fst (eval l 0 breadth st) = static_val b /\
  forall depth, depth <> 0%Z -> legal_moves b = [] ->
    fst (eval l depth breadth st) = Raise (EvalsEmpty b).
Proof.
  intros Hl Ho Hw. split.
  - rewrite (computes_fst _ _ _ _ st (eval_value l b 0 breadth) Hl).
    eapply eval_val_draw_depth_0; eassumption.
  - intros depth Hd Hmoves.
    rewrite (computes_fst _ _ _ _ st (eval_value l b depth breadth) Hl).
    rewrite eval_val_unfold. unfold eval_val_body. rewrite Ho. simpl. rewrite Hw. simpl.
    destruct (Z.eqb_spec depth 0) as [| _]; [contradiction |].
    unfold generate_candidates_with_val, scored_moves_val, sorted. rewrite Hmoves.
    destruct (Bool.eqb (turn b) WHITE); reflexivity.
Qed.

End Selection.

(** ** The claims on the tabulated positions *)

(** C1: on a root with legal moves [suggest] returns an entry of its list
    [evals], the tuple of the selected move and its score, where a bare
    move is announced: here the tuple of the move e1e2 and the score 3. *)
Theorem suggest_returns_move_score_tuple :
  exists score,
    fst (suggest root 1 1 (store_of trap_position))
      = Ok (ScoredPair "e1e2"%string score) /\
    (score == 3.0)%Q.
Proof. eexists. split; vm_compute; reflexivity. Qed.

(** C2: on the stalemated position, whose outcome has no winner, [eval]
    does not return 0.0: at depth 0 it returns the six-term sum, 11.9, and
    at depth 1 it raises. *)
Theorem eval_stalemate_not_zero :
  outcome stalemate_position = Some (mkOutcome STALEMATE None) /\
  (exists v, fst (eval root 0 5 (store_of stalemate_position)) = Ok v /\
             (v == 11.9)%Q /\ ~ (v == 0.0)%Q) /\
  fst (eval root 1 5 (store_of stalemate_position))
    = Raise (EvalsEmpty stalemate_position).
Proof.
  split; [reflexivity |]. split; [| vm_compute; reflexivity].
  eexists. split; [vm_compute; reflexivity |]. split; [reflexivity | discriminate].
Qed.

(** C4: on the checkmated root, which has a decisive outcome and no legal
    move, [suggest] raises [ValueError] (the maximum or minimum of an empty
    list); on the stalemated root it returns [None]. *)
Theorem suggest_checkmated_root_raises :
  outcome checkmate_position = Some (mkOutcome CHECKMATE (Some WHITE)) /\
  legal_moves checkmate_position = [] /\
  fst (suggest root 5 10 (store_of checkmate_position)) = Raise ValueError /\
  fst (suggest root 5 10 (store_of mated_white_position)) = Raise ValueError /\
  fst (suggest root 5 10 (store_of stalemate_position)) = Ok NoMove.
Proof. repeat split; vm_compute; reflexivity. Qed.

(** C3, as stated: with breadth 1 the root would evaluate its first
    candidate only.  It evaluates both, and selects the second. *)
Lemma root_truncation_counterexample :
  ~ root_truncation_honored (store_of trap_position) root 1 1 /\
  exists candidates move score,
    fst (generate_candidates root 1 (store_of trap_position)) = Ok candidates /\
    fst (suggest root 1 1 (store_of trap_position)) = Ok (ScoredPair move score) /\
    ~ In move (firstn 1 candidates).
Proof.
  split.
  - intros H.
    assert (Hcands : fst (generate_candidates root 1 (store_of trap_position)) =
                     Ok ["d1d5"; "e1e2"]%string) by (vm_compute; reflexivity).
    assert (Hevals : exists s1 s2,
              fst (suggest_evals root 1 1 (store_of trap_position)) =
              Ok [("d1d5"%string, s1); ("e1e2"%string, s2)]).
    { eexists _, _. vm_compute. reflexivity. }
    destruct Hevals as (s1 & s2 & Hevals).
    specialize (H _ _ Hcands Hevals). discriminate H.
  - eexists _, _, _. split; [vm_compute; reflexivity |].
    split; [vm_compute; reflexivity |].
    simpl. intros [H | []]. discriminate H.
Qed.

(** ** The theorems at concrete positions *)

Lemma eval_decisive_outcome_witness :
  fst (eval root 3 10 (store_of checkmate_position)) = Ok 1000.0%Q /\
  fst (eval root 0 1 (store_of mated_white_position)) = Ok (- 1000.0)%Q.
Proof.
  split.
  - apply (proj1 (eval_decisive_outcome (store_of checkmate_position) root
                    checkmate_position (mkOutcome CHECKMATE (Some WHITE)) 3 10
                    eq_refl eq_refl)).
    reflexivity.
  - apply (proj2 (eval_decisive_outcome (store_of mated_white_position) root
                    mated_white_position (mkOutcome CHECKMATE (Some BLACK)) 0 1
                    eq_refl eq_refl)).
    reflexivity.
Defined.

Lemma eval_depth_0_static_formula_witness :
  exists v, fst (eval root 0 7 (store_of trap_position)) = Ok v /\ (v == 3.0)%Q.
Proof.
  destruct (eval_depth_0_static_formula (store_of trap_position) root trap_position 7
              4%nat 60%nat eq_refl eq_refl eq_refl eq_refl) as (v & Hv & Heq).
  exists v. split; [exact Hv |].
  eapply Qeq_trans; [exact Heq |]. vm_compute. reflexivity.
Defined.

Lemma generate_candidates_sorted_permutation_witness :
  exists scored : list (string * Q),
    fst (generate_candidates root 4 (store_of trap_position)) = Ok (map fst scored) /\
    Permutation (map fst scored) ["e1e2"; "d1d5"]%string /\
    StronglySorted (descending snd) scored.
Proof.
  destruct (generate_candidates_sorted_permutation (store_of trap_position) root
              trap_position 4 eq_refl) as (scored & Hgen & Hperm & _ & Hsorted).
  { intros move [<- | [<- | []]]; eexists; vm_compute; reflexivity. }
  exists scored. split; [exact Hgen |]. split; [exact Hperm | exact Hsorted].
Defined.

Lemma eval_child_budget_witness :
  eval root 3 10 (store_of trap_position) =
    (candidates <- generate_candidates root 10 ;;
     evals <- for_each candidates (fun move =>
                make_move root move (fun new_board => eval new_board 2 5)) ;;
     select_extremum root evals) (store_of trap_position).
Proof.
  exact (proj1 (eval_child_budget (store_of trap_position) root trap_position 3 10
                  eq_refl eq_refl eq_refl eq_refl)).
Defined.

Lemma eval_no_candidates_raises_witness :
  fst (eval root 1 3 (store_of after_recapture)) = Raise (EvalsEmpty after_recapture).
Proof.
  refine (proj1 (eval_no_candidates_raises (store_of after_recapture) root
                  after_recapture 1 3 eq_refl eq_refl eq_refl _)).
  vm_compute. reflexivity.
Defined.

Lemma exploration_leaves_boards_unchanged_witness :
  heap (snd (eval root 1 1 (store_of trap_position))) !! root = Some trap_position /\
  heap (snd (suggest root 1 1 (store_of trap_position))) !! root = Some trap_position /\
  heap (snd (generate_candidates root 1 (store_of trap_position))) !! root
    = Some trap_position.
Proof.
  destruct (exploration_leaves_boards_unchanged (store_of trap_position) root
              trap_position 1 1 eq_refl)
    as (_ & (_ & Heval) & (_ & Hsuggest) & (_ & Hgen)).
  split; [exact Heval |]. split; [exact Hsuggest | exact Hgen].
Defined.

Lemma suggest_evaluates_every_candidate_witness :
  (exists evals,
     fst (suggest_evals root 1 1 (store_of trap_position)) = Ok evals /\
     Permutation (map fst evals) ["e1e2"; "d1d5"]%string /\
     length evals = 2) /\
  exists move score,
    fst (suggest root 1 1 (store_of trap_position)) = Ok (ScoredPair move score) /\
    forall move', In move' ["e1e2"; "d1d5"]%string ->
      exists score',
        fst (make_move root move' (fun tmp_board => eval tmp_board 1 1)
               (store_of trap_position)) = Ok score' /\
        (score' <= score)%Q.
Proof.
  destruct (suggest_evaluates_every_candidate (store_of trap_position) root
              trap_position 1 1 eq_refl) as (_ & Hall & _ & Hbest).
  split.
  - assert (Hrun : exists evals,
              fst (suggest_evals root 1 1 (store_of trap_position)) = Ok evals).
    { eexists. vm_compute. reflexivity. }
    destruct Hrun as [evals Hevals].
    destruct (Hall evals Hevals) as (_ & Hperm & Hlen).
    exists evals. split; [exact Hevals |]. split; [exact Hperm | exact Hlen].
  - assert (Hrun : exists move score,
              fst (suggest root 1 1 (store_of trap_position))
              = Ok (ScoredPair move score)).
    { eexists _, _. vm_compute. reflexivity. }
    destruct Hrun as (move & score & Hrun).
    exists move, score. split; [exact Hrun |].
    exact (proj2 (Hbest move score Hrun)).
Defined.

(** * Further properties of the search *)

(** ** The plies that depth and breadth allow *)

Section EffectiveDepth.
Context {E : RulesEngine}.

Lemma log2_half breadth :
  (2 <= breadth)%Z -> Z.log2 (breadth / 2) = (Z.log2 breadth - 1)%Z.
Proof.
  intros H. change 2%Z with (2 ^ 1)%Z at 1. rewrite <- Z.shiftr_div_pow2 by lia.
  rewrite Z.log2_shiftr by lia.
  pose proof (Z.log2_le_mono 2 breadth). change (Z.log2 2) with 1%Z in *. lia.
Qed.

Lemma effective_depth_nonneg depth breadth : (0 <= effective_depth depth breadth)%Z.
Proof.
  unfold effective_depth. pose proof (Z.log2_nonneg breadth).
  destruct (depth =? 0)%Z; [lia |]. destruct (breadth <=? 0)%Z; [lia |].
  destruct (Z.ltb_spec depth 0); lia.
Qed.

Lemma effective_depth_zero depth breadth :
  effective_depth depth breadth = 0%Z -> depth = 0%Z.
Proof.
  unfold effective_depth. pose proof (Z.log2_nonneg breadth).
  destruct (Z.eqb_spec depth 0); [auto |]. destruct (breadth <=? 0)%Z; [lia |].
  destruct (Z.ltb_spec depth 0); lia.
Qed.

(** A recursive call has one ply less to look ahead. *)
Lemma effective_depth_child depth breadth :
  depth <> 0%Z ->
  effective_depth depth breadth =
  (1 + effective_depth (if (breadth >? 0)%Z then depth - 1 else 0)%Z (breadth / 2))%Z.
Proof.
  intros Hd. unfold effective_depth at 1.
  destruct (Z.eqb_spec depth 0) as [| _]; [contradiction |].
  destruct (Z.leb_spec breadth 0) as [Hb | Hb].
  - destruct (Z.gtb_spec breadth 0); [lia |]. reflexivity.
  - destruct (Z.gtb_spec breadth 0); [| lia].
    assert (Hhalf : breadth = 1%Z \/ (2 <= breadth)%Z) by lia.
    unfold effective_depth.
    destruct Hhalf as [-> | Hbig].
    + change (1 / 2)%Z with 0%Z. change (Z.log2 1) with 0%Z.
      destruct (Z.leb_spec 0 0); [| lia].
      destruct (Z.eqb_spec (depth - 1) 0); destruct (Z.ltb_spec depth 0); lia.
    + rewrite (log2_half breadth Hbig).
      assert (0 < breadth / 2)%Z by (apply Z.div_str_pos; lia).
      destruct (Z.leb_spec (breadth / 2) 0); [lia |].
      pose proof (Z.log2_nonneg (breadth / 2)). rewrite (log2_half breadth Hbig) in *.
      destruct (Z.eqb_spec (depth - 1) 0); destruct (Z.ltb_spec depth 0);
        destruct (Z.ltb_spec (depth - 1) 0); lia.
Qed.

(** The body of [eval] uses its depth and breadth only to test
    [depth == 0] and to compute the budget of the recursive calls. *)
Lemma eval_body_budget_ext ev l depth breadth depth' breadth' :
  depth <> 0%Z -> depth' <> 0%Z ->
  (forall l' st,
     ev l' (if (breadth >? 0)%Z then depth - 1 else 0)%Z (breadth / 2)%Z st =
     ev l' (if (breadth' >? 0)%Z then depth' - 1 else 0)%Z (breadth' / 2)%Z st) ->
  forall st, eval_body ev l depth breadth st = eval_body ev l depth' breadth' st.
Proof.
  intros Hd Hd' Hchild st. unfold eval_body.
  apply bind_ext; [reflexivity | intros o st'].
  destruct (outcome_and_winner_is o WHITE); [reflexivity |].
  destruct (outcome_and_winner_is o BLACK); [reflexivity |].
  destruct (truthy o && is_None o); [reflexivity |].
  destruct (Z.eqb_spec depth 0); [contradiction |].
  destruct (Z.eqb_spec depth' 0); [contradiction |].
  apply bind_ext; [reflexivity | intros candidates st''].
  apply bind_ext; [| reflexivity].
  apply for_each_ext. intros move st3. apply make_move_ext. apply Hchild.
Qed.

Lemma eval_depth_0_any_breadth l breadth breadth' st :
  eval l 0 breadth st = eval l 0 breadth' st.
Proof.
  rewrite !eval_unfold. unfold eval_body.
  apply bind_ext; [reflexivity | intros o st'].
  destruct (outcome_and_winner_is o WHITE); [reflexivity |].
  destruct (outcome_and_winner_is o BLACK); [reflexivity |].
  destruct (truthy o && is_None o); reflexivity.
Qed.

Lemma eval_effective_depth_nat n : forall l depth breadth depth' breadth' st,
  effective_depth depth breadth = Z.of_nat n ->
  effective_depth depth' breadth' = Z.of_nat n ->
  eval l depth breadth st = eval l depth' breadth' st.
Proof.
  induction n as [| n IH]; intros l depth breadth depth' breadth' st H H'.
  - apply effective_depth_zero in H, H'. subst. apply eval_depth_0_any_breadth.
  - assert (Hd : depth <> 0%Z) by (intros ->; discriminate H).
    assert (Hd' : depth' <> 0%Z) by (intros ->; discriminate H').
    rewrite (effective_depth_child _ _ Hd) in H.
    rewrite (effective_depth_child _ _ Hd') in H'.
    rewrite !eval_unfold.
    apply eval_body_budget_ext; [assumption | assumption |].
    intros l' st'. apply IH; lia.
Qed.

(** X1: the run of [eval] depends on its depth and breadth only through
    the number of plies they allow, [min(depth, log2(breadth) + 2)] for
    positive arguments: two budgets with the same effective depth give the
    same result and the same final store. *)
Theorem eval_depends_on_effective_depth st l depth breadth depth' breadth' :
  effective_depth depth breadth = effective_depth depth' breadth' ->
  eval l depth breadth st = eval l depth' breadth' st.
Proof.
  intros H.
  apply (eval_effective_depth_nat (Z.to_nat (effective_depth depth breadth)));
    pose proof (effective_depth_nonneg depth breadth); lia.
Qed.

End EffectiveDepth.

Lemma eval_depends_on_effective_depth_witness :
  eval root 7 1 (store_of trap_position) = eval root 2 5 (store_of trap_position) /\
  eval root (-3) 1 (store_of trap_position) = eval root 2 1 (store_of trap_position).
Proof.
  split.
  - apply (eval_depends_on_effective_depth (store_of trap_position) root 7 1 2 5).
    reflexivity.
  - apply (eval_depends_on_effective_depth (store_of trap_position) root (-3) 1 2 1).
    reflexivity.
Defined.

(** ** Bounded recursion *)

Section Bounded.
Context {E : RulesEngine}.

(** X2: the recursion of [eval] is bounded whatever the integers [depth]
    and [breadth] are, negative ones included: a budget of [call_budget]
    nested calls, at most [log2(breadth) + 2], is never used up, and a
    larger budget gives the same run. *)
Theorem eval_recursion_bounded st l depth breadth fuel :
  call_budget depth breadth <= fuel ->
  eval_fuel fuel l depth breadth st = eval l depth breadth st /\
  fst (eval_fuel fuel l depth breadth st) <> Raise RecursionError /\
  (Z.of_nat (call_budget depth breadth) <= Z.log2 breadth + 2)%Z.
Proof.
  intros Hfuel. split; [apply eval_fuel_enough, Hfuel |].
  split.
  - rewrite (eval_fuel_enough fuel l depth breadth st Hfuel).
    apply eval_no_recursion_error.
  - unfold call_budget. pose proof (Z.log2_nonneg breadth).
    destruct (depth =? 0)%Z; [lia |]. destruct (breadth >? 0)%Z; lia.
Qed.

End Bounded.

Lemma eval_recursion_bounded_witness :
  eval_fuel 40 root (-1) 10 (store_of trap_position)
    = eval root (-1) 10 (store_of trap_position) /\
  fst (eval_fuel 40 root (-1) 10 (store_of trap_position)) <> Raise RecursionError.
Proof.
  destruct (eval_recursion_bounded (store_of trap_position) root (-1) 10 40)
    as (Hsame & Hfine & _).
  - vm_compute. lia.
  - split; [exact Hsame | exact Hfine].
Defined.

(** ** What [eval] returns and raises *)

Section Minimax.
Context {E : RulesEngine}.

Lemma generate_candidates_with_val_perm ev b candidates :
  generate_candidates_with_val ev b = Ok candidates ->
  Permutation candidates (legal_moves b).
Proof.
  unfold generate_candidates_with_val, scored_moves_val.
  destruct (rmap _ (legal_moves b)) as [evals | e] eqn:Hevals; simpl; [| discriminate].
  intros [= <-]. apply rmap_scored_fst in Hevals as [<- _].
  apply Permutation_map, sorted_perm.
Qed.

Lemma rmap_ok_result {A B} (f : A -> result B) xs ys y :
  rmap f xs = Ok ys -> In y ys -> exists x, In x xs /\ f x = Ok y.
Proof.
  intros H. apply rmap_ok in H.
  induction H as [| x y' xs ys Hx _ IH]; intros Hin; [destruct Hin |].
  destruct Hin as [<- | Hin].
  - exists x. split; [left; reflexivity | assumption].
  - destruct (IH Hin) as (x' & Hx' & Hfx'). exists x'. split; [right |]; assumption.
Qed.

Lemma rmap_ok_argument {A B} (f : A -> result B) xs ys x :
  rmap f xs = Ok ys -> In x xs -> exists y, In y ys /\ f x = Ok y.
Proof.
  intros H. apply rmap_ok in H.
  induction H as [| x' y xs ys Hx _ IH]; intros Hin; [destruct Hin |].
  destruct Hin as [<- | Hin].
  - exists y. split; [left; reflexivity | assumption].
  - destruct (IH Hin) as (y' & Hy' & Hfx). exists y'. split; [right |]; assumption.
Qed.

(** The value selected at the end of [eval] is one of the evaluations, and
    none is better for the side to move. *)
Lemma select_extremum_val_ok b evals v :
  select_extremum_val b evals = Ok v ->
  In v evals /\
  Forall (fun s => if Bool.eqb (turn b) WHITE then (s <= v)%Q else (v <= s)%Q) evals.
Proof.
  unfold select_extremum_val. destruct evals as [| v0 evals]; [discriminate |].
  simpl py_or. destruct (Bool.eqb (turn b) WHITE).
  - destruct (py_max_by id (v0 :: evals)) as [r |] eqn:Hmax; [| discriminate].
    intros [= <-]. apply py_max_by_first in Hmax as (pre & post & Heq & Hpre & Hpost).
    rewrite Heq. split; [apply in_or_app; right; left; reflexivity |].
    apply Forall_app. split.
    + eapply Forall_impl; [exact Hpre |]. intros s Hs. apply Qlt_le_weak, Hs.
    + constructor; [apply Qle_refl | exact Hpost].
  - destruct (py_min_by id (v0 :: evals)) as [r |] eqn:Hmin; [| discriminate].
    intros [= <-]. apply py_min_by_first in Hmin as (pre & post & Heq & Hpre & Hpost).
    rewrite Heq. split; [apply in_or_app; right; left; reflexivity |].
    apply Forall_app. split.
    + eapply Forall_impl; [exact Hpre |]. intros s Hs. apply Qlt_le_weak, Hs.
    + constructor; [apply Qle_refl | exact Hpost].
Qed.

(** Exploring a move from a board computes the evaluation of the position
    after the move. *)
Lemma explore_value st l b move depth breadth :
  heap st !! l = Some b ->
  fst (make_move l move (fun new_board => eval new_board depth breadth) st) =
  eval_val (push b move) depth breadth.
Proof.
  intros Hl. apply (computes_fst l b); [| exact Hl].
  apply computes_make_move. intros l'. apply eval_value.
Qed.

(** X3: when [eval] looks ahead, on a position without winner, and
    returns a score, that score is the evaluation of the position after
    some legal move, and after no legal move is the evaluation better for
    the side to move: higher for White, lower for Black.  Every legal move
    takes part, whatever the breadth. *)
Theorem eval_is_minimax st l b depth breadth v :
  heap st !! l = Some b ->
  outcome_and_winner_is (outcome b) WHITE = false ->
  outcome_and_winner_is (outcome b) BLACK = false ->
  depth <> 0%Z ->
  fst (eval l depth breadth st) = Ok v ->
  (exists move,
     In move (legal_moves b) /\
     fst (make_move l move (fun new_board =>
            eval new_board (if (breadth >? 0)%Z then depth - 1 else 0)%Z
                 (breadth / 2)%Z) st) = Ok v) /\
  forall move, In move (legal_moves b) ->
    exists s,
      fst (make_move l move (fun new_board =>
             eval new_board (if (breadth >? 0)%Z then depth - 1 else 0)%Z
                  (breadth / 2)%Z) st) = Ok s /\
      if Bool.eqb (turn b) WHITE then (s <= v)%Q else (v <= s)%Q.
Proof.
  intros Hl Hwhite Hblack Hd Hv.
  rewrite (computes_fst _ _ _ _ st (eval_value l b depth breadth) Hl) in Hv.
  rewrite eval_val_unfold in Hv. unfold eval_val_body in Hv.
  rewrite Hwhite, Hblack, not_truthy_and_None in Hv.
  destruct (Z.eqb_spec depth 0) as [| _]; [contradiction |].
  destruct (generate_candidates_with_val _ b) as [candidates |] eqn:Hgen;
    simpl in Hv; [| discriminate].
  apply generate_candidates_with_val_perm in Hgen.
  destruct (rmap _ candidates) as [evals |] eqn:Hevals; simpl in Hv; [| discriminate].
  apply select_extremum_val_ok in Hv as [Hin Hall].
  split.
  - destruct (rmap_ok_result _ _ _ _ Hevals Hin) as (move & Hmove & Hscore).
    exists move. split; [eapply Permutation_in; eassumption |].
    rewrite (explore_value st l b move _ _ Hl). exact Hscore.
  - intros move Hmove.
    apply (Permutation_in _ (Permutation_sym Hgen)) in Hmove.
    destruct (rmap_ok_argument _ _ _ _ Hevals Hmove) as (s & Hs & Hscore).
    exists s. split.
    + rewrite (explore_value st l b move _ _ Hl). exact Hscore.
    + rewrite List.Forall_forall in Hall. apply (Hall s Hs).
Qed.

End Minimax.

Lemma eval_is_minimax_witness :
  exists v,
    fst (eval root 2 2 (store_of trap_position)) = Ok v /\
    exists move,
      In move ["e1e2"; "d1d5"]%string /\
      fst (make_move root move (fun new_board => eval new_board 1 1)
             (store_of trap_position)) = Ok v.
Proof.
  assert (Hrun : exists v, fst (eval root 2 2 (store_of trap_position)) = Ok v).
  { eexists. vm_compute. reflexivity. }
  destruct Hrun as [v Hv]. exists v. split; [exact Hv |].
  exact (proj1 (eval_is_minimax (store_of trap_position) root trap_position 2 2 v
                  eq_refl eq_refl eq_refl ltac:(discriminate) Hv)).
Defined.

(** ** Where scores and exceptions come from *)

Section Provenance.
Context {E : RulesEngine}.

Lemma reachable_after_move b move b' :
  In move (legal_moves b) -> reachable (push b move) b' -> reachable b b'.
Proof. apply reachable_move. Qed.

(** Without recursive call, [eval] is [eval] at depth 0 with breadth 0. *)
Lemma eval_val_body_leaf_case ev b depth breadth :
  outcome_and_winner_is (outcome b) WHITE = true \/
  outcome_and_winner_is (outcome b) BLACK = true \/
  depth = 0%Z ->
  eval_val_body ev b depth breadth = eval_val b 0 0.
Proof.
  intros H. unfold eval_val. simpl. unfold eval_val_body.
  destruct (outcome_and_winner_is (outcome b) WHITE); [reflexivity |].
  destruct (outcome_and_winner_is (outcome b) BLACK); [reflexivity |].
  rewrite not_truthy_and_None.
  destruct H as [H | [H | ->]]; [discriminate | discriminate | reflexivity].
Qed.

Lemma eval_val_body_leaf ev :
  (forall b depth breadth v, ev b depth breadth = Ok v ->
     exists leaf, reachable b leaf /\ eval_val leaf 0 0 = Ok v) ->
  forall b depth breadth v, eval_val_body ev b depth breadth = Ok v ->
    exists leaf, reachable b leaf /\ eval_val leaf 0 0 = Ok v.
Proof.
  intros Hev b depth breadth v Hv.
  destruct (outcome_and_winner_is (outcome b) WHITE) eqn:Hwhite.
  { exists b. split; [constructor |].
    rewrite <- (eval_val_body_leaf_case ev b depth breadth); auto. }
  destruct (outcome_and_winner_is (outcome b) BLACK) eqn:Hblack.
  { exists b. split; [constructor |].
    rewrite <- (eval_val_body_leaf_case ev b depth breadth); auto. }
  destruct (Z.eq_dec depth 0%Z) as [-> | Hd].
  { exists b. split; [constructor |].
    rewrite <- (eval_val_body_leaf_case ev b 0 breadth); auto. }
  unfold eval_val_body in Hv. rewrite Hwhite, Hblack, not_truthy_and_None in Hv.
  destruct (Z.eqb_spec depth 0) as [| _]; [contradiction |].
  destruct (generate_candidates_with_val _ b) as [candidates |] eqn:Hgen;
    simpl in Hv; [| discriminate].
  apply generate_candidates_with_val_perm in Hgen.
  destruct (rmap _ candidates) as [evals |] eqn:Hevals; simpl in Hv; [| discriminate].
  apply select_extremum_val_ok in Hv as [Hin _].
  destruct (rmap_ok_result _ _ _ _ Hevals Hin) as (move & Hmove & Hscore).
  destruct (Hev _ _ _ _ Hscore) as (leaf & Hreach & Hleaf).
  exists leaf. split; [| exact Hleaf].
  eapply reachable_move; [eapply Permutation_in; eassumption | exact Hreach].
Qed.

Lemma eval_val_fuel_leaf fuel : forall b depth breadth v,
  eval_val_fuel fuel b depth breadth = Ok v ->
  exists leaf, reachable b leaf /\ eval_val leaf 0 0 = Ok v.
Proof.
  induction fuel as [| fuel IH]; simpl; apply eval_val_body_leaf.
  - discriminate.
  - exact IH.
Qed.

(** X4: a score returned by [eval] is never made up: it is what [eval]
    returns at depth 0 on some position reached from the board by legal
    moves, that is 1000.0, -1000.0 or a six-term static sum. *)
Theorem eval_score_is_a_leaf_score st l b depth breadth v :
  heap st !! l = Some b ->
  fst (eval l depth breadth st) = Ok v ->
  exists leaf,
    reachable b leaf /\
    forall st' l', heap st' !! l' = Some leaf -> fst (eval l' 0 0 st') = Ok v.
Proof.
  intros Hl Hv.
  rewrite (computes_fst _ _ _ _ st (eval_value l b depth breadth) Hl) in Hv.
  destruct (eval_val_fuel_leaf _ _ _ _ _ Hv) as (leaf & Hreach & Hleaf).
  exists leaf. split; [exact Hreach |].
  intros st' l' Hl'.
  rewrite (computes_fst _ _ _ _ st' (eval_value l' leaf 0 0) Hl'). exact Hleaf.
Qed.

Lemma rmap_raise_legal {A B} (f : A -> result B) xs ys e :
  Permutation xs ys -> rmap f xs = Raise e -> exists x, In x ys /\ f x = Raise e.
Proof.
  intros Hperm H. apply rmap_raise in H as (x & Hin & Hx).
  exists x. split; [eapply Permutation_in; eassumption | exact Hx].
Qed.

Lemma search_error_after_move b move e :
  In move (legal_moves b) -> search_error (push b move) e -> search_error b e.
Proof.
  intros Hmove [-> | (b' & Hreach & ->)]; [left; reflexivity |].
  right. exists b'. split; [eapply reachable_move; eassumption | reflexivity].
Qed.

Lemma eval_val_body_raise ev b depth breadth e :
  (depth <> 0%Z -> forall b' e', ev b' 0%Z 0%Z = Raise e' -> search_error b' e') ->
  (depth <> 0%Z -> forall b' e',
     ev b' (child_depth depth breadth) (child_breadth breadth) = Raise e' ->
     search_error b' e') ->
  eval_val_body ev b depth breadth = Raise e ->
  search_error b e.
Proof.
  intros Hrank Hchild. unfold eval_val_body.
  destruct (outcome_and_winner_is (outcome b) WHITE); [discriminate |].
  destruct (outcome_and_winner_is (outcome b) BLACK); [discriminate |].
  rewrite not_truthy_and_None.
  destruct (Z.eqb_spec depth 0) as [| Hd].
  { unfold static_val, king_safety_score_val.
    destruct (king b WHITE); simpl; [| intros [= <-]; left; reflexivity].
    destruct (king b BLACK); simpl; [discriminate | intros [= <-]; left; reflexivity]. }
  unfold generate_candidates_with_val at 1, scored_moves_val.
  destruct (rmap _ (legal_moves b)) as [scored |] eqn:Hscored; simpl.
  2:{ intros [= ->]. apply rmap_raise in Hscored as (move & Hmove & Hraise).
      destruct (ev (push b move) 0%Z 0%Z) eqn:Hev; simpl in Hraise; [discriminate |].
      injection Hraise as ->.
      eapply search_error_after_move; [exact Hmove | eapply Hrank; eassumption]. }
  apply rmap_scored_fst in Hscored as [Hfst _].
  destruct (rmap _ (map fst _)) as [evals |] eqn:Hevals; simpl.
  2:{ intros [= ->].
      apply (rmap_raise_legal _ _ (legal_moves b)) in Hevals as (move & Hmove & Hraise).
      - eapply search_error_after_move; [exact Hmove | eapply Hchild; eassumption].
      - rewrite <- Hfst. apply Permutation_map, sorted_perm. }
  unfold select_extremum_val. destruct evals as [| v evals].
  { intros [= <-]. right. exists b. split; [constructor | reflexivity]. }
  simpl py_or. destruct (Bool.eqb (turn b) WHITE).
  - destruct (py_max_by id (v :: evals)) eqn:Hmax; [discriminate | discriminate Hmax].
  - destruct (py_min_by id (v :: evals)) eqn:Hmin; [discriminate | discriminate Hmin].
Qed.

Lemma eval_val_raise n : forall b depth breadth e,
  call_budget depth breadth <= n ->
  eval_val b depth breadth = Raise e ->
  search_error b e.
Proof.
  induction n as [| n IH]; intros b depth breadth e Hn; rewrite eval_val_unfold;
    apply eval_val_body_raise; intros Hd b' e'.
  - pose proof (call_budget_child depth breadth Hd). lia.
  - pose proof (call_budget_child depth breadth Hd). lia.
  - apply IH. apply Nat.le_0_l.
  - apply IH. pose proof (call_budget_child depth breadth Hd).
    unfold child_depth, child_breadth. lia.
Qed.

(** X5: the only exceptions [eval] raises on a board are [TypeError], when
    a position it scores has no king of some side, and the exception that
    carries a position, reached from the board by legal moves, for which
    no candidate was found; in particular never [ValueError]. *)
Theorem eval_raises_only st l b depth breadth e :
  heap st !! l = Some b ->
  fst (eval l depth breadth st) = Raise e ->
  e = TypeError \/ exists b', reachable b b' /\ e = EvalsEmpty b'.
Proof.
  intros Hl He.
  rewrite (computes_fst _ _ _ _ st (eval_value l b depth breadth) Hl) in He.
  eapply (eval_val_raise (call_budget depth breadth)); [reflexivity | exact He].
Qed.

End Provenance.

Lemma eval_score_is_a_leaf_score_witness :
  exists leaf,
    reachable trap_position leaf /\
    fst (eval root 0 0 (store_of leaf)) = fst (eval root 2 2 (store_of trap_position)).
Proof.
  assert (Hrun : exists v, fst (eval root 2 2 (store_of trap_position)) = Ok v).
  { eexists. vm_compute. reflexivity. }
  destruct Hrun as [v Hv].
  destruct (eval_score_is_a_leaf_score (store_of trap_position) root trap_position
              2 2 v eq_refl Hv) as (leaf & Hreach & Hleaf).
  exists leaf. split; [exact Hreach |].
  rewrite Hv. apply Hleaf. apply lookup_insert_eq.
Defined.

Lemma eval_raises_only_witness :
  exists b', reachable stalemate_position b' /\
    fst (eval root 1 5 (store_of stalemate_position)) = Raise (EvalsEmpty b').
Proof.
  assert (Hrun : exists e,
            fst (eval root 1 5 (store_of stalemate_position)) = Raise e /\
            e <> TypeError).
  { eexists. split; [vm_compute; reflexivity | discriminate]. }
  destruct Hrun as (e & He & Hne).
  destruct (eval_raises_only (store_of stalemate_position) root stalemate_position
              1 5 e eq_refl He) as [-> | (b' & Hreach & ->)]; [contradiction |].
  exists b'. split; [exact Hreach | exact He].
Defined.

(** ** The move that [suggest] selects *)

Section Suggestion.
Context {E : RulesEngine}.

Lemma py_max_by_member {A} (key : A -> Q) xs r :
  py_max_by key xs = Some r -> In r xs.
Proof.
  intros H. apply py_max_by_first in H as (pre & post & -> & _).
  apply in_or_app. right. left. reflexivity.
Qed.

Lemma py_min_by_member {A} (key : A -> Q) xs r :
  py_min_by key xs = Some r -> In r xs.
Proof.
  intros H. apply py_min_by_first in H as (pre & post & -> & _).
  apply in_or_app. right. left. reflexivity.
Qed.

(** What a returned tuple tells about the run of [suggest]. *)
Lemma suggest_val_pair b depth breadth move score :
  suggest_val b depth breadth = Ok (ScoredPair move score) ->
  is_variant_end b = false /\ is_stalemate b = false /\
  exists candidates evals,
    generate_candidates_val b = Ok candidates /\
    rmap (fun move => rbind (eval_val (push b move) depth breadth)
                            (fun score => Ok (move, score)))
         candidates = Ok evals /\
    (if Bool.eqb (turn b) WHITE then py_max_by snd evals else py_min_by snd evals)
      = Some (move, score).
Proof.
  unfold suggest_val, root_evals_val.
  destruct (is_variant_end b); [discriminate |].
  destruct (is_stalemate b); [discriminate |].
  destruct (generate_candidates_val b) as [candidates |]; simpl; [| discriminate].
  destruct (rmap _ candidates) as [evals |] eqn:Hevals; simpl; [| discriminate].
  intros H. split; [reflexivity |]. split; [reflexivity |].
  exists candidates, evals. split; [reflexivity |]. split; [exact Hevals |].
  destruct (Bool.eqb (turn b) WHITE).
  - destruct (py_max_by snd evals) as [[m s] |]; [| discriminate].
    injection H as -> ->. reflexivity.
  - destruct (py_min_by snd evals) as [[m s] |]; [| discriminate].
    injection H as -> ->. reflexivity.
Qed.

(** X6: the tuple returned by [suggest] holds a legal move of the root
    and the evaluation, at the depth and breadth asked for, of the
    position after that move. *)
Theorem suggest_selects_legal_move st l b depth breadth move score :
  heap st !! l = Some b ->
  fst (suggest l depth breadth st) = Ok (ScoredPair move score) ->
  In move (legal_moves b) /\
  fst (make_move l move (fun tmp_board => eval tmp_board depth breadth) st) = Ok score.
Proof.
  intros Hl H.
  rewrite (computes_fst _ _ _ _ st (suggest_value l b depth breadth) Hl) in H.
  apply suggest_val_pair in H
    as (_ & _ & candidates & evals & Hgen & Hevals & Hsel).
  assert (Hin : In (move, score) evals).
  { destruct (Bool.eqb (turn b) WHITE);
      [eapply py_max_by_member | eapply py_min_by_member]; exact Hsel. }
  apply rmap_scored_fst in Hevals as [Hfst Hall].
  rewrite List.Forall_forall in Hall. specialize (Hall _ Hin). simpl in Hall.
  split.
  - eapply Permutation_in; [apply generate_candidates_val_perm, Hgen |].
    rewrite <- Hfst. apply (in_map fst _ _ Hin).
  - rewrite (explore_value st l b move _ _ Hl). exact Hall.
Qed.

Lemma fold_max_snd {A} (rest : list (A * Q)) x :
  fold_left (max_step id) (map snd rest) (snd x) = snd (fold_left (max_step snd) rest x).
Proof.
  revert x. induction rest as [| y rest IH]; intros x; simpl; [reflexivity |].
  rewrite <- IH. f_equal. unfold max_step, id. destruct (Qltb (snd x) (snd y)); reflexivity.
Qed.

Lemma fold_min_snd {A} (rest : list (A * Q)) x :
  fold_left (min_step id) (map snd rest) (snd x) = snd (fold_left (min_step snd) rest x).
Proof.
  revert x. induction rest as [| y rest IH]; intros x; simpl; [reflexivity |].
  rewrite <- IH. f_equal. unfold min_step, id. destruct (Qltb (snd y) (snd x)); reflexivity.
Qed.

Lemma py_max_by_snd {A} (evals : list (A * Q)) :
  py_max_by id (map snd evals) = option_map snd (py_max_by snd evals).
Proof.
  destruct evals as [| x rest]; simpl; [reflexivity | f_equal; apply fold_max_snd].
Qed.

Lemma py_min_by_snd {A} (evals : list (A * Q)) :
  py_min_by id (map snd evals) = option_map snd (py_min_by snd evals).
Proof.
  destruct evals as [| x rest]; simpl; [reflexivity | f_equal; apply fold_min_snd].
Qed.

Lemma rmap_scored_snd {A} (f : A -> result Q) xs (evals : list (A * Q)) :
  rmap (fun x => rbind (f x) (fun s => Ok (x, s))) xs = Ok evals ->
  rmap f xs = Ok (map snd evals).
Proof.
  revert evals. induction xs as [| x xs IH]; simpl; intros evals H.
  - injection H as <-. reflexivity.
  - destruct (f x) as [s |]; simpl in H; [| discriminate].
    destruct (rmap _ xs) as [evals' |]; simpl in H; [| discriminate].
    injection H as <-. rewrite (IH evals' eq_refl). reflexivity.
Qed.

(** X7: [suggest] and [eval] agree: with a positive breadth, on a root
    without winner, the score that [suggest] returns with its move is the
    score that [eval] returns on the root itself, one ply deeper and with
    twice the breadth. *)
Theorem suggest_score_is_deeper_eval st l b depth breadth move score :
  heap st !! l = Some b ->
  outcome_and_winner_is (outcome b) WHITE = false ->
  outcome_and_winner_is (outcome b) BLACK = false ->
  (0 < breadth)%Z ->
  (depth + 1)%Z <> 0%Z ->
  fst (suggest l depth breadth st) = Ok (ScoredPair move score) ->
  fst (eval l (depth + 1) (2 * breadth) st) = Ok score.
Proof.
  intros Hl Hwhite Hblack Hb Hd H.
  rewrite (computes_fst _ _ _ _ st (suggest_value l b depth breadth) Hl) in H.
  apply suggest_val_pair in H
    as (_ & _ & candidates & evals & Hgen & Hevals & Hsel).
  rewrite (computes_fst _ _ _ _ st (eval_value l b _ _) Hl).
  rewrite eval_val_unfold. unfold eval_val_body.
  rewrite Hwhite, Hblack, not_truthy_and_None.
  destruct (Z.eqb_spec (depth + 1) 0) as [| _]; [contradiction |].
  fold (generate_candidates_val b). rewrite Hgen. simpl.
  assert (Hdepth : child_depth (depth + 1) (2 * breadth) = depth).
  { unfold child_depth. destruct (Z.gtb_spec (2 * breadth) 0); lia. }
  assert (Hbreadth : child_breadth (2 * breadth) = breadth).
  { unfold child_breadth. rewrite Z.mul_comm. apply Z.div_mul. discriminate. }
  rewrite Hdepth, Hbreadth, (rmap_scored_snd _ _ _ Hevals). simpl.
  unfold select_extremum_val.
  destruct evals as [| e evals];
    [destruct (Bool.eqb (turn b) WHITE); discriminate Hsel |].
  simpl map. simpl py_or. change (snd e :: map snd evals) with (map snd (e :: evals)).
  destruct (Bool.eqb (turn b) WHITE).
  - rewrite py_max_by_snd, Hsel. reflexivity.
  - rewrite py_min_by_snd, Hsel. reflexivity.
Qed.

Lemma generate_candidates_val_raise b e :
  generate_candidates_val b = Raise e ->
  exists move, In move (legal_moves b) /\ eval_val (push b move) 0 0 = Raise e.
Proof.
  unfold generate_candidates_val, generate_candidates_with_val, scored_moves_val.
  destruct (rmap _ (legal_moves b)) as [scored |] eqn:Hscored; simpl; [discriminate |].
  intros [= ->]. apply rmap_raise in Hscored as (move & Hmove & Hraise).
  exists move. split; [exact Hmove |].
  destruct (eval_val (push b move) 0 0); simpl in Hraise; [discriminate |].
  injection Hraise as ->. reflexivity.
Qed.

Lemma eval_val_never_value_error b depth breadth :
  eval_val b depth breadth <> Raise ValueError.
Proof.
  intros H. apply (eval_val_raise (call_budget depth breadth)) in H; [| reflexivity].
  destruct H as [H | (b' & _ & H)]; discriminate H.
Qed.

(** X8: [suggest] raises [ValueError] exactly on a root that has no legal
    move and that neither the variant-end test nor the stalemate test
    covers, such as a checkmated root on a standard board. *)
Theorem suggest_value_error_iff st l b depth breadth :
  heap st !! l = Some b ->
  fst (suggest l depth breadth st) = Raise ValueError <->
  is_variant_end b = false /\ is_stalemate b = false /\ legal_moves b = [].
Proof.
  intros Hl. split.
  - rewrite (computes_fst _ _ _ _ st (suggest_value l b depth breadth) Hl).
    unfold suggest_val, root_evals_val.
    destruct (is_variant_end b); [discriminate |].
    destruct (is_stalemate b); [discriminate |].
    destruct (generate_candidates_val b) as [candidates |] eqn:Hgen; simpl.
    2:{ intros [= ->]. apply generate_candidates_val_raise in Hgen as (m & _ & Hm).
        exfalso. exact (eval_val_never_value_error _ _ _ Hm). }
    destruct (rmap _ candidates) as [evals |] eqn:Hevals; simpl.
    2:{ intros [= ->]. apply rmap_raise in Hevals as (m & _ & Hm). exfalso.
        destruct (eval_val (push b m) depth breadth) eqn:Hev; simpl in Hm;
          [discriminate |].
        injection Hm as ->. exact (eval_val_never_value_error _ _ _ Hev). }
    intros H. split; [reflexivity |]. split; [reflexivity |].
    apply rmap_scored_fst in Hevals as [Hfst _].
    apply generate_candidates_val_perm in Hgen.
    destruct evals as [| e evals].
    + simpl in Hfst. subst candidates. apply Permutation_nil. exact Hgen.
    + exfalso. destruct (Bool.eqb (turn b) WHITE).
      * destruct (py_max_by snd (e :: evals)) as [[m s] |] eqn:Hmax;
          [discriminate H | discriminate Hmax].
      * destruct (py_min_by snd (e :: evals)) as [[m s] |] eqn:Hmin;
          [discriminate H | discriminate Hmin].
  - intros (Hend & Hstale & Hmoves).
    eapply suggest_unflagged_dead_root; eassumption.
Qed.

Lemma rmap_raises {A B} (f : A -> result B) xs x e :
  In x xs -> f x = Raise e -> exists e', rmap f xs = Raise e'.
Proof.
  induction xs as [| y xs IH]; intros Hin Hx; [destruct Hin |]. simpl.
  destruct (f y) as [v |] eqn:Hy; simpl; [| eexists; reflexivity].
  destruct Hin as [-> | Hin]; [congruence |].
  destruct (IH Hin Hx) as [e' ->]. simpl. eexists; reflexivity.
Qed.

(** X9: when some legal move of the root leads to a position that has no
    legal move and no winner (a stalemate, for one), [suggest] at a non-zero
    depth returns nothing: it ends with an exception. *)
Theorem suggest_raises_on_dead_end_move st l b depth breadth move :
  heap st !! l = Some b ->
  is_variant_end b = false ->
  is_stalemate b = false ->
  In move (legal_moves b) ->
  legal_moves (push b move) = [] ->
  outcome_and_winner_is (outcome (push b move)) WHITE = false ->
  outcome_and_winner_is (outcome (push b move)) BLACK = false ->
  depth <> 0%Z ->
  exists e, fst (suggest l depth breadth st) = Raise e.
Proof.
  intros Hl Hend Hstale Hmove Hdead Hwhite Hblack Hd.
  rewrite (computes_fst _ _ _ _ st (suggest_value l b depth breadth) Hl).
  unfold suggest_val, root_evals_val. rewrite Hend, Hstale.
  destruct (generate_candidates_val b) as [candidates | e] eqn:Hgen; simpl;
    [| eexists; reflexivity].
  apply generate_candidates_val_perm in Hgen.
  assert (Hraise : eval_val (push b move) depth breadth
                   = Raise (EvalsEmpty (push b move))).
  { rewrite eval_val_unfold. unfold eval_val_body.
    rewrite Hwhite, Hblack, not_truthy_and_None.
    destruct (Z.eqb_spec depth 0) as [| _]; [contradiction |].
    unfold generate_candidates_with_val, scored_moves_val, sorted. rewrite Hdead.
    destruct (Bool.eqb (turn (push b move)) WHITE); reflexivity. }
  destruct (rmap_raises
              (fun move => rbind (eval_val (push b move) depth breadth)
                                 (fun score => Ok (move, score)))
              candidates move (EvalsEmpty (push b move))) as [e' ->].
  - eapply Permutation_in; [symmetry; exact Hgen | exact Hmove].
  - rewrite Hraise. reflexivity.
  - simpl. eexists; reflexivity.
Qed.

End Suggestion.

Lemma suggest_selects_legal_move_witness :
  exists move score,
    fst (suggest root 1 1 (store_of trap_position)) = Ok (ScoredPair move score) /\
    In move ["e1e2"; "d1d5"]%string /\
    fst (make_move root move (fun tmp_board => eval tmp_board 1 1)
           (store_of trap_position)) = Ok score.
Proof.
  assert (Hrun : exists move score,
            fst (suggest root 1 1 (store_of trap_position)) = Ok (ScoredPair move score)).
  { eexists _, _. vm_compute. reflexivity. }
  destruct Hrun as (move & score & Hrun).
  destruct (suggest_selects_legal_move (store_of trap_position) root trap_position
              1 1 move score eq_refl Hrun) as [Hlegal Hscore].
  exists move, score. split; [exact Hrun |]. split; [exact Hlegal | exact Hscore].
Defined.

Lemma suggest_score_is_deeper_eval_witness :
  exists move score,
    fst (suggest root 1 1 (store_of trap_position)) = Ok (ScoredPair move score) /\
    fst (eval root 2 2 (store_of trap_position)) = Ok score.
Proof.
  assert (Hrun : exists move score,
            fst (suggest root 1 1 (store_of trap_position)) = Ok (ScoredPair move score)).
  { eexists _, _. vm_compute. reflexivity. }
  destruct Hrun as (move & score & Hrun).
  exists move, score. split; [exact Hrun |].
  apply (suggest_score_is_deeper_eval (store_of trap_position) root trap_position
           1 1 move score eq_refl eq_refl eq_refl eq_refl ltac:(discriminate) Hrun).
Defined.

Lemma suggest_value_error_iff_witness :
  fst (suggest root 5 10 (store_of checkmate_position)) = Raise ValueError.
Proof.
  apply (proj2 (suggest_value_error_iff (store_of checkmate_position) root
                  checkmate_position 5 10 eq_refl)).
  split; [reflexivity |]. split; reflexivity.
Defined.

Lemma suggest_raises_on_dead_end_move_witness :
  exists e, fst (suggest root 1 1 (store_of after_grab)) = Raise e.
Proof.
  apply (suggest_raises_on_dead_end_move (store_of after_grab) root after_grab 1 1
           "d8d5"%string eq_refl eq_refl eq_refl);
    [left; reflexivity | reflexivity | reflexivity | reflexivity | discriminate].
Defined.

(** ** Copies and output *)

Section Effects.
Context {E : RulesEngine}.

Lemma reads_only_ret {A} (a : A) : reads_only (ret a).
Proof. intros st. reflexivity. Qed.

Lemma reads_only_raise {A} e : reads_only (@raise E A e).
Proof. intros st. reflexivity. Qed.

Lemma reads_only_bind {A B} (c : M A) (k : A -> M B) :
  reads_only c -> (forall a, reads_only (k a)) -> reads_only (bind c k).
Proof.
  intros Hc Hk st. unfold bind. specialize (Hc st).
  destruct (c st) as [[a | e] st']; simpl in *; subst st'; [apply Hk | reflexivity].
Qed.

Lemma reads_only_get_board l : reads_only (get_board l).
Proof. intros st. unfold get_board. destruct (heap st !! l); reflexivity. Qed.

Lemma reads_only_query {A} (f : Board -> A) l : reads_only (query f l).
Proof.
  apply reads_only_bind; [apply reads_only_get_board | intros; apply reads_only_ret].
Qed.

Lemma reads_only_get_material_score l color :
  reads_only (get_material_score l color).
Proof.
  apply reads_only_bind; [apply reads_only_get_board | intros; apply reads_only_ret].
Qed.

Lemma reads_only_get_attacked_squares_score l color :
  reads_only (get_attacked_squares_score l color).
Proof.
  apply reads_only_bind; [apply reads_only_get_board | intros; apply reads_only_ret].
Qed.

Lemma reads_only_get_king_safety_score l color :
  reads_only (get_king_safety_score l color).
Proof.
  apply reads_only_bind; [apply reads_only_get_board | intros b].
  destruct (king b color); [apply reads_only_ret | apply reads_only_raise].
Qed.

Lemma reads_only_static l :
  reads_only
    (material_white <- get_material_score l WHITE ;;
     material_black <- get_material_score l BLACK ;;
     attacked_white <- get_attacked_squares_score l WHITE ;;
     attacked_black <- get_attacked_squares_score l BLACK ;;
     safety_white <- get_king_safety_score l WHITE ;;
     safety_black <- get_king_safety_score l BLACK ;;
     ret (py_sum [material_white; - material_black;
                  attacked_white; - attacked_black;
                  safety_white; - safety_black]%Q)).
Proof.
  repeat (apply reads_only_bind;
          [first [apply reads_only_get_material_score
                 | apply reads_only_get_attacked_squares_score
                 | apply reads_only_get_king_safety_score] | intros ?]).
  apply reads_only_ret.
Qed.

Lemma reads_only_eval_depth_0 l breadth : reads_only (eval l 0 breadth).
Proof.
  intros st. rewrite eval_unfold. revert st. unfold eval_body.
  apply reads_only_bind; [apply reads_only_query | intros o].
  destruct (outcome_and_winner_is o WHITE); [apply reads_only_ret |].
  destruct (outcome_and_winner_is o BLACK); [apply reads_only_ret |].
  destruct (truthy o && is_None o); [apply reads_only_ret |].
  apply reads_only_static.
Qed.

(** X10: the static evaluation reads only: [eval] at depth 0, the three
    score methods and [generate_moves] leave the store and the standard
    output exactly as they found them; no board is copied. *)
Theorem static_evaluation_reads_only st l breadth color :
  snd (eval l 0 breadth st) = st /\
  snd (get_material_score l color st) = st /\
  snd (get_attacked_squares_score l color st) = st /\
  snd (get_king_safety_score l color st) = st /\
  snd (generate_moves l st) = st.
Proof.
  split; [apply reads_only_eval_depth_0 |].
  split; [apply reads_only_get_material_score |].
  split; [apply reads_only_get_attacked_squares_score |].
  split; [apply reads_only_get_king_safety_score | apply reads_only_query].
Qed.

Lemma reads_only_silent {A} (c : M A) : reads_only c -> silent c.
Proof. intros H st. rewrite H. reflexivity. Qed.

Lemma silent_ret {A} (a : A) : silent (ret a).
Proof. intros st. reflexivity. Qed.

Lemma silent_raise {A} e : silent (@raise E A e).
Proof. intros st. reflexivity. Qed.

Lemma silent_bind {A B} (c : M A) (k : A -> M B) :
  silent c -> (forall a, silent (k a)) -> silent (bind c k).
Proof.
  intros Hc Hk st. unfold bind. specialize (Hc st).
  destruct (c st) as [[a | e] st']; simpl in *; [| exact Hc].
  rewrite Hk. exact Hc.
Qed.

Lemma silent_get_board l : silent (get_board l).
Proof. intros st. unfold get_board. destruct (heap st !! l); reflexivity. Qed.

Lemma silent_query {A} (f : Board -> A) l : silent (query f l).
Proof. apply silent_bind; [apply silent_get_board | intros; apply silent_ret]. Qed.

Lemma silent_for_each {A B} (body : A -> M B) xs :
  (forall x, silent (body x)) -> silent (for_each xs body).
Proof.
  intros Hbody. induction xs as [| x xs IH]; simpl; [apply silent_ret |].
  apply silent_bind; [apply Hbody | intros y].
  apply silent_bind; [apply IH | intros; apply silent_ret].
Qed.

Lemma silent_make_move {A} l move (body : loc -> M A) :
  (forall l', silent (body l')) -> silent (make_move l move body).
Proof.
  intros Hbody. unfold make_move.
  apply silent_bind.
  { unfold board_copy. apply silent_bind; [apply silent_get_board |].
    intros b st. reflexivity. }
  intros l'. apply silent_bind; [| intros; apply Hbody].
  unfold board_push. apply silent_bind; [apply silent_get_board |].
  intros b st. reflexivity.
Qed.

Lemma silent_generate_candidates_with ev l k :
  (forall l' depth breadth, silent (ev l' depth breadth)) ->
  silent (generate_candidates_with ev l k).
Proof.
  intros Hev. unfold generate_candidates_with.
  apply silent_bind; [apply silent_query | intros moves].
  apply silent_bind.
  { apply silent_for_each. intros move. apply silent_make_move. intros l'.
    apply silent_bind; [apply Hev | intros; apply silent_ret]. }
  intros evals. apply silent_bind; [apply silent_query | intros; apply silent_ret].
Qed.

Lemma silent_select_extremum l evals : silent (select_extremum l evals).
Proof.
  unfold select_extremum. destruct evals as [| v evals].
  - apply silent_bind; [apply silent_get_board | intros; apply silent_raise].
  - apply silent_bind; [apply silent_query | intros t].
    destruct (Bool.eqb t WHITE).
    + destruct (py_max_by id _); [apply silent_ret | apply silent_raise].
    + destruct (py_min_by id _); [apply silent_ret | apply silent_raise].
Qed.

Lemma silent_eval_body ev l depth breadth :
  (forall l' depth' breadth', silent (ev l' depth' breadth')) ->
  silent (eval_body ev l depth breadth).
Proof.
  intros Hev. unfold eval_body.
  apply silent_bind; [apply silent_query | intros o].
  destruct (outcome_and_winner_is o WHITE); [apply silent_ret |].
  destruct (outcome_and_winner_is o BLACK); [apply silent_ret |].
  destruct (truthy o && is_None o); [apply silent_ret |].
  destruct (depth =? 0)%Z.
  - apply reads_only_silent, reads_only_static.
  - apply silent_bind; [apply silent_generate_candidates_with, Hev | intros cands].
    apply silent_bind; [| intros; apply silent_select_extremum].
    apply silent_for_each. intros move. apply silent_make_move. intros l'. apply Hev.
Qed.

Lemma silent_eval_fuel fuel : forall l depth breadth,
  silent (eval_fuel fuel l depth breadth).
Proof.
  induction fuel as [| fuel IH]; intros l depth breadth; simpl;
    apply silent_eval_body; intros.
  - apply silent_raise.
  - apply IH.
Qed.

Lemma silent_eval l depth breadth : silent (eval l depth breadth).
Proof. apply silent_eval_fuel. Qed.

(** X11: only [suggest] prints, and one line at most: "game is over" on a
    root flagged as variant end, "stalemate" on a root flagged as
    stalemate, nothing on any other root; [eval] and
    [generate_candidates] print nothing. *)
Theorem suggest_output st l b depth breadth :
  heap st !! l = Some b ->
  stdout (snd (suggest l depth breadth st)) =
    stdout st ++ (if is_variant_end b then ["game is over"%string]
                  else if is_stalemate b then ["stalemate"%string]
                  else []) /\
  (forall st', stdout (snd (eval l depth breadth st')) = stdout st') /\
  (forall st', stdout (snd (generate_candidates l breadth st')) = stdout st').
Proof.
  intros Hl. split; [| split].
  - unfold suggest, bind at 1. rewrite (query_run _ l b st Hl).
    destruct (is_variant_end b); [reflexivity |].
    unfold bind at 1. rewrite (query_run _ l b st Hl).
    destruct (is_stalemate b); [reflexivity |].
    rewrite app_nil_r.
    assert (Hs : silent (suggest_evals l depth breadth)).
    { unfold suggest_evals. apply silent_bind.
      - apply silent_generate_candidates_with. intros. apply silent_eval.
      - intros cands. apply silent_for_each. intros move. apply silent_make_move.
        intros l'. apply silent_bind; [apply silent_eval | intros; apply silent_ret]. }
    apply (silent_bind _ _ Hs). intros evals.
    apply silent_bind; [apply silent_query | intros t].
    destruct (Bool.eqb t WHITE).
    + destruct (py_max_by snd evals) as [[m s] |]; [apply silent_ret | apply silent_raise].
    + destruct (py_min_by snd evals) as [[m s] |]; [apply silent_ret | apply silent_raise].
  - apply silent_eval.
  - apply silent_generate_candidates_with. intros. apply silent_eval.
Qed.

End Effects.

Lemma suggest_output_witness :
  stdout (snd (suggest root 5 10 (store_of stalemate_position))) = ["stalemate"%string].
Proof.
  exact (proj1 (suggest_output (store_of stalemate_position) root stalemate_position
                  5 10 eq_refl)).
Defined.

Section Copies.
Context {E : RulesEngine}.

(** The loop of [generate_candidates] makes one copy for each move. *)
Lemma rank_loop_copies l b moves : forall st evals st',
  heap st !! l = Some b ->
  for_each moves (fun move =>
    make_move l move (fun new_board =>
      score <- eval new_board 0 0 ;; ret (move, score))) st = (Ok evals, st') ->
  heap st' !! l = Some b /\ size (heap st') = size (heap st) + length moves.
Proof.
  induction moves as [| move moves IH]; intros st evals st' Hl Hrun; simpl in Hrun.
  - injection Hrun as <- <-. simpl. split; [exact Hl | lia].
  - destruct (make_move_run l b move
                (fun new_board => score <- eval new_board 0 0 ;; ret (move, score))
                st Hl) as [Hfresh Hmove].
    set (l' := fresh (dom (heap st))) in *.
    set (st2 := mkState (<[l' := push b move]> (heap st)) (stdout st)) in *.
    unfold bind at 1 in Hrun. rewrite Hmove in Hrun.
    unfold bind at 1 in Hrun.
    pose proof (reads_only_eval_depth_0 l' 0 st2) as Hread.
    destruct (eval l' 0 0 st2) as [[score | e] st3]; simpl in Hread; subst st3;
      simpl in Hrun; [| discriminate].
    assert (Hl2 : heap st2 !! l = Some b).
    { simpl. rewrite lookup_insert_ne; [exact Hl |]. intros ->. congruence. }
    assert (Hsize : size (heap st2) = S (size (heap st))).
    { simpl. apply map_size_insert_None. exact Hfresh. }
    unfold bind at 1 in Hrun.
    destruct (for_each moves _ st2) as [[ys | e] st4] eqn:Hloop; simpl in Hrun;
      [| discriminate].
    injection Hrun as <- <-.
    destruct (IH st2 ys st4 Hl2 Hloop) as [Hl4 Hsize4].
    split; [exact Hl4 |]. simpl length. lia.
Qed.

(** X12: a successful call of [generate_candidates] makes exactly one
    board copy for each legal move: the store grows by as many boards as
    the position has legal moves. *)
Theorem generate_candidates_copies st l b k candidates :
  heap st !! l = Some b ->
  fst (generate_candidates l k st) = Ok candidates ->
  size (heap (snd (generate_candidates l k st))) =
  size (heap st) + length (legal_moves b).
Proof.
  intros Hl Hrun. unfold generate_candidates, generate_candidates_with in *.
  unfold bind at 1 in Hrun. unfold bind at 1.
  rewrite (query_run _ l b st Hl) in *.
  unfold bind at 1 in Hrun. unfold bind at 1.
  destruct (for_each (legal_moves b) _ st) as [[evals | e] st1] eqn:Hloop;
    simpl in Hrun; [| discriminate].
  destruct (rank_loop_copies l b _ st evals st1 Hl Hloop) as [Hl1 Hsize].
  unfold bind. rewrite (query_run _ l b st1 Hl1). simpl. exact Hsize.
Qed.

End Copies.

Lemma generate_candidates_copies_witness :
  size (heap (snd (generate_candidates root 3 (store_of trap_position)))) = 3.
Proof.
  assert (Hrun : exists candidates,
            fst (generate_candidates root 3 (store_of trap_position)) = Ok candidates).
  { eexists. vm_compute. reflexivity. }
  destruct Hrun as [candidates Hrun].
  exact (generate_candidates_copies (store_of trap_position) root trap_position 3
           candidates eq_refl Hrun).
Defined.

(** ** Rebuilding a list of scored moves *)

Section ScoredLists.
Context {E : RulesEngine}.

Lemma rmap_scored_build {A} (f : A -> result Q) (evals : list (A * Q)) :
  Forall (fun e => f (fst e) = Ok (snd e)) evals ->
  rmap (fun x => rbind (f x) (fun s => Ok (x, s))) (map fst evals) = Ok evals.
Proof.
  induction 1 as [| [x s] evals Hx _ IH]; simpl; [reflexivity |].
  simpl in Hx. rewrite Hx. simpl. rewrite IH. reflexivity.
Qed.

End ScoredLists.

(** ** The parts of the static score *)

Section Parts.
Context {E : RulesEngine}.

(** X14: on a position without winner, [eval] at depth 0 raises
    [TypeError] exactly when a side has no king on the board (its king
    safety asks for the squares attacked from [None]); with both kings it
    returns a score. *)
Theorem eval_depth_0_type_error_iff st l b breadth :
  heap st !! l = Some b ->
  outcome_and_winner_is (outcome b) WHITE = false ->
  outcome_and_winner_is (outcome b) BLACK = false ->
  (fst (eval l 0 breadth st) = Raise TypeError <->
   king b WHITE = None \/ king b BLACK = None) /\
  ((exists v, fst (eval l 0 breadth st) = Ok v) <->
   king b WHITE <> None /\ king b BLACK <> None).
Proof.
  intros Hl Hwhite Hblack.
  rewrite (computes_fst _ _ _ _ st (eval_value l b 0 breadth) Hl).
  unfold eval_val. simpl. unfold eval_val_body.
  rewrite Hwhite, Hblack, not_truthy_and_None. simpl.
  unfold static_val, king_safety_score_val.
  destruct (king b WHITE) as [wk |]; destruct (king b BLACK) as [bk |]; simpl.
  - split; split.
    + discriminate.
    + intros [H | H]; discriminate H.
    + intros _. split; discriminate.
    + intros _. eexists; reflexivity.
  - split; split.
    + intros _. right. reflexivity.
    + reflexivity.
    + intros [v H]. discriminate H.
    + intros [_ H]. contradiction.
  - split; split.
    + intros _. left. reflexivity.
    + reflexivity.
    + intros [v H]. discriminate H.
    + intros [H _]. contradiction.
  - split; split.
    + intros _. left. reflexivity.
    + reflexivity.
    + intros [v H]. discriminate H.
    + intros [H _]. contradiction.
Qed.

Lemma Qplus_nonneg a b : (0 <= a)%Q -> (0 <= b)%Q -> (0 <= a + b)%Q.
Proof.
  intros Ha Hb. change 0%Q with (0 + 0)%Q at 1.
  apply Qplus_le_compat; assumption.
Qed.

Lemma inject_nat_nonneg n : (0 <= inject_Z (Z.of_nat n))%Q.
Proof. change 0%Q with (inject_Z 0). rewrite <- Zle_Qle. lia. Qed.

Lemma piece_value_pos p : (0 <= piece_value p)%Q.
Proof. destruct p; discriminate. Qed.

Lemma material_fold_nonneg b color kinds acc :
  (0 <= acc)%Q ->
  (0 <= fold_left
          (fun score piece =>
             score + inject_Z (Z.of_nat (length (pieces b piece color)))
                     * piece_value piece)
          kinds acc)%Q.
Proof.
  revert acc. induction kinds as [| kind kinds IH]; intros acc Hacc; simpl; [exact Hacc |].
  apply IH. apply Qplus_nonneg; [exact Hacc |].
  apply Qmult_le_0_compat; [apply inject_nat_nonneg | apply piece_value_pos].
Qed.

(** X15: the three parts of the static score are never negative, and the
    king safety of a side is at most 0.2 times the number of squares its
    king attacks. *)
Theorem score_parts_bounds st l b color :
  heap st !! l = Some b ->
  (exists m, fst (get_material_score l color st) = Ok m /\ (0 <= m)%Q) /\
  (exists a, fst (get_attacked_squares_score l color st) = Ok a /\ (0 <= a)%Q) /\
  (forall king_square, king b color = Some king_square ->
     exists s, fst (get_king_safety_score l color st) = Ok s /\
       (0 <= s)%Q /\
       (s <= 0.2 * inject_Z (Z.of_nat (length (attacks b king_square))))%Q).
Proof.
  intros Hl. split; [| split].
  - rewrite (computes_fst _ _ _ _ st (computes_get_material_score l b color) Hl).
    eexists. split; [reflexivity |]. apply material_fold_nonneg. discriminate.
  - rewrite (computes_fst _ _ _ _ st (computes_get_attacked_squares_score l b color) Hl).
    eexists. split; [reflexivity |].
    rewrite attacked_squares_score_spec. unfold spec_mobility.
    apply Qmult_le_0_compat; [discriminate | apply inject_nat_nonneg].
  - intros king_square Hk.
    rewrite (computes_fst _ _ _ _ st (computes_get_king_safety_score l b color) Hl).
    destruct (king_safety_score_spec b color king_square Hk) as (s & -> & Hs).
    exists s. split; [reflexivity |]. rewrite Hs. unfold spec_king_safety. split.
    + apply Qmult_le_0_compat; [discriminate | apply inject_nat_nonneg].
    + apply Qmult_le_l; [reflexivity |].
      rewrite <- Zle_Qle. apply Nat2Z.inj_le. apply List.filter_length_le.
Qed.

End Parts.

Lemma eval_depth_0_type_error_iff_witness :
  exists v, fst (eval root 0 3 (store_of trap_position)) = Ok v.
Proof.
  apply (proj2 (proj2 (eval_depth_0_type_error_iff (store_of trap_position) root
                         trap_position 3 eq_refl eq_refl eq_refl))).
  split; discriminate.
Defined.

Lemma score_parts_bounds_witness :
  exists s, fst (get_king_safety_score root WHITE (store_of stalemate_position)) = Ok s /\
    (0 <= s)%Q /\ (s <= 0.2 * 8)%Q.
Proof.
  exact (proj2 (proj2 (score_parts_bounds (store_of stalemate_position) root
                         stalemate_position WHITE eq_refl)) 53%nat eq_refl).
Defined.

(** ** Depth 0 at the root *)

Section RootDepth0.
Context {E : RulesEngine}.

Lemma fold_max_sorted {A} (key : A -> Q) l x :
  Forall (descending key x) l -> fold_left (max_step key) l x = x.
Proof.
  induction 1 as [| y l Hy _ IH]; simpl; [reflexivity |].
  unfold max_step at 2. unfold descending in Hy.
  apply Qltb_ge in Hy. rewrite Hy. exact IH.
Qed.

Lemma fold_min_sorted {A} (key : A -> Q) l x :
  Forall (ascending key x) l -> fold_left (min_step key) l x = x.
Proof.
  induction 1 as [| y l Hy _ IH]; simpl; [reflexivity |].
  unfold min_step at 2. unfold ascending in Hy.
  apply Qltb_ge in Hy. rewrite Hy. exact IH.
Qed.

(** On a list sorted for the side to move, the selection is the head. *)
Lemma select_sorted_head {A} (key : A -> Q) (white : bool) l r :
  StronglySorted (if white then descending key else ascending key) l ->
  (if white then py_max_by key l else py_min_by key l) = Some r ->
  exists rest, l = r :: rest.
Proof.
  intros Hsorted Hsel. destruct l as [| x rest]; [destruct white; discriminate |].
  apply StronglySorted_inv in Hsorted as [_ Hx].
  exists rest. f_equal. destruct white; simpl in Hsel; injection Hsel as <-.
  - symmetry. apply fold_max_sorted, Hx.
  - symmetry. apply fold_min_sorted, Hx.
Qed.

(** X16: at depth 0 [suggest] returns the first candidate: the selection
    among evaluations that are the scores the candidates were sorted by
    picks the head of the sorted sequence, for White as for Black. *)
Theorem suggest_depth_0_first_candidate st l b breadth move score :
  heap st !! l = Some b ->
  fst (suggest l 0 breadth st) = Ok (ScoredPair move score) ->
  exists rest, fst (generate_candidates l breadth st) = Ok (move :: rest).
Proof.
  intros Hl H.
  rewrite (computes_fst _ _ _ _ st (suggest_value l b 0 breadth) Hl) in H.
  rewrite (computes_fst _ _ _ _ st (generate_candidates_value l b breadth) Hl).
  apply suggest_val_pair in H
    as (_ & _ & candidates & evals & Hgen & Hevals & Hsel).
  rewrite Hgen.
  unfold generate_candidates_val, generate_candidates_with_val, scored_moves_val in Hgen.
  destruct (rmap _ (legal_moves b)) as [scored |] eqn:Hscored; simpl in Hgen;
    [| discriminate].
  injection Hgen as <-.
  apply rmap_scored_fst in Hscored as [_ Hall].
  assert (Hsame : evals = sorted snd (Bool.eqb (turn b) WHITE) scored).
  { rewrite rmap_scored_build in Hevals; [injection Hevals as <-; reflexivity |].
    eapply Permutation_Forall; [symmetry; apply sorted_perm |]. exact Hall. }
  subst evals.
  destruct (select_sorted_head snd (Bool.eqb (turn b) WHITE) _ (move, score)
              (sorted_ordered snd _ scored)) as [rest Hrest].
  - destruct (Bool.eqb (turn b) WHITE); exact Hsel.
  - rewrite Hrest. simpl. eexists; reflexivity.
Qed.

End RootDepth0.

Lemma suggest_depth_0_first_candidate_witness :
  exists move score rest,
    fst (suggest root 0 4 (store_of trap_position)) = Ok (ScoredPair move score) /\
    fst (generate_candidates root 4 (store_of trap_position)) = Ok (move :: rest).
Proof.
  assert (Hrun : exists move score,
            fst (suggest root 0 4 (store_of trap_position)) = Ok (ScoredPair move score)).
  { eexists _, _. vm_compute. reflexivity. }
  destruct Hrun as (move & score & Hrun).
  destruct (suggest_depth_0_first_candidate (store_of trap_position) root
              trap_position 4 move score eq_refl Hrun) as [rest Hrest].
  exists move, score, rest. split; [exact Hrun | exact Hrest].
Defined.
